(** * grpcgcp: the gcp balancer (gcp_balancer.go)

    A shallow embedding of the connectivity state evaluator, the
    sub-connection references and the balancer of package [grpcgcp],
    followed by the properties of the specification that concern them.

    Conventions of the embedding.
    - [uint64] counters are integers reduced modulo 2^64 after every
      addition, [int32] counters are reduced to the two's complement range
      after every [atomic.AddInt32].
    - Go maps are [gmap]s.  Reading a missing key yields the zero value of
      the element type: [Idle] for [connectivity.State], the nil pointer
      (here [None]) for [*subConnRef].
    - Every [*subConnRef] is allocated once, by [newSubConn], and stored under
      the handle of its own [subConn]; the map [scRefs] is therefore modelled
      as a map from handles to the records themselves, and a pointer to a
      reference is designated by its handle.
    - A nil pointer dereference is the result [Panic].
    - The mutex [mu] serialises the operations; they are modelled as atomic
      steps on the balancer value.
    - Calls into the host ([cc.NewSubConn], [sc.Connect], ...) are recorded
      in the field [cc]; what the host answers to [cc.NewSubConn] is an
      input of the operation that asks. *)

From stdpp Require Import base gmap strings list fin_maps.
From Stdlib Require Import ZArith Lia.

Local Open Scope Z_scope.

(** ** connectivity.State *)

Inductive State : Set :=
  | Idle
  | Connecting
  | Ready
  | TransientFailure
  | Shutdown.

#[global] Instance State_eq_dec : EqDecision State.
Proof. solve_decision. Defined.

(** ** Machine integers *)

Definition uint64 (z : Z) : Z := z mod 2 ^ 64.

Definition int32 (z : Z) : Z := (z + 2 ^ 31) mod 2 ^ 32 - 2 ^ 31.

(** ** ConnectivityStateEvaluator *)

Module Evaluator.

Record ConnectivityStateEvaluator : Set := mkCSE {
  numReady : Z;
  numConnecting : Z;
  numTransientFailure : Z
}.

(** The zero value [&ConnectivityStateEvaluator{}]. *)
Definition zero : ConnectivityStateEvaluator := mkCSE 0 0 0.

(** [updateVal := 2*uint64(idx) - 1], computed on [uint64]. *)
Definition updateVal (idx : Z) : Z := uint64 (uint64 (2 * uint64 idx) - 1).

(** The body of the [switch state] of the loop. *)
Definition update (cse : ConnectivityStateEvaluator) (state : State) (v : Z)
  : ConnectivityStateEvaluator :=
  match state with
  | Ready =>
      mkCSE (uint64 (numReady cse + v)) (numConnecting cse) (numTransientFailure cse)
  | Connecting =>
      mkCSE (numReady cse) (uint64 (numConnecting cse + v)) (numTransientFailure cse)
  | TransientFailure =>
      mkCSE (numReady cse) (numConnecting cse) (uint64 (numTransientFailure cse + v))
  | Idle | Shutdown => cse
  end.

(** [for idx, state := range []connectivity.State{oldState, newState}]. *)
Fixpoint updateCounters (cse : ConnectivityStateEvaluator) (idx : Z) (states : list State)
  : ConnectivityStateEvaluator :=
  match states with
  | [] => cse
  | state :: rest => updateCounters (update cse state (updateVal idx)) (idx + 1) rest
  end.

(** The part after the comment [// Evaluate.]. *)
Definition evaluate (cse : ConnectivityStateEvaluator) : State :=
  if 0 <? numReady cse then Ready
  else if 0 <? numConnecting cse then Connecting
  else TransientFailure.

(** [RecordTransition] returns the updated evaluator (the receiver is
    mutated in place) and the aggregated state. *)
Definition RecordTransition (cse : ConnectivityStateEvaluator) (oldState newState : State)
  : ConnectivityStateEvaluator * State :=
  let cse' := updateCounters cse 0 [oldState; newState] in
  (cse', evaluate cse').

(** Feeding a sequence of (old, new) pairs, one call after the other. *)
Definition feed (cse : ConnectivityStateEvaluator) (ps : list (State * State))
  : ConnectivityStateEvaluator :=
  fold_left (fun c p => fst (RecordTransition c (fst p) (snd p))) ps cse.

(** The value returned by the last call when [ps] and then [p] are fed to a
    fresh evaluator. *)
Definition lastReturn (ps : list (State * State)) (p : State * State) : State :=
  snd (RecordTransition (feed zero ps) (fst p) (snd p)).

(** Counters stay in the range of [uint64]. *)
Definition wf (cse : ConnectivityStateEvaluator) : Prop :=
  0 <= numReady cse < 2 ^ 64 /\
  0 <= numConnecting cse < 2 ^ 64 /\
  0 <= numTransientFailure cse < 2 ^ 64.

(** The counter that corresponds to a state; [None] for [Idle] and
    [Shutdown], which have none. *)
Definition counter (cse : ConnectivityStateEvaluator) (s : State) : option Z :=
  match s with
  | Ready => Some (numReady cse)
  | Connecting => Some (numConnecting cse)
  | TransientFailure => Some (numTransientFailure cse)
  | Idle | Shutdown => None
  end.

(** [ind s t] is 1 when [s = t] and 0 otherwise. *)
Definition ind (s t : State) : Z := if decide (s = t) then 1 else 0.

(** Number of connections that the transitions [ps] leave in state [s]:
    those that entered [s] minus those that left it. *)
Fixpoint tracked (s : State) (ps : list (State * State)) : Z :=
  match ps with
  | [] => 0
  | (o, n) :: rest => ind n s - ind o s + tracked s rest
  end.

(** The aggregation rule, read on the transitions themselves: the value
    returned by the last call, when [ps] and then [p] are fed to a fresh
    evaluator, is [Ready] iff some connection is left in [Ready]; otherwise
    [Connecting] iff some connection is left in [Connecting]; otherwise
    [TransientFailure]. *)
Definition aggregates (ps : list (State * State)) (p : State * State) : Prop :=
  let all := ps ++ [p] in
  let r := lastReturn ps p in
  (r = Ready <-> 0 < tracked Ready all) /\
  (~ 0 < tracked Ready all -> (r = Connecting <-> 0 < tracked Connecting all)) /\
  (~ 0 < tracked Ready all -> ~ 0 < tracked Connecting all -> r = TransientFailure).

End Evaluator.

(** ** subConnRef *)

(** [balancer.SubConn] handles are opaque to the balancer; they are only
    compared and used as map keys. *)
Abbreviation SubConn := nat.

Record subConnRef : Set := mkRef {
  subConn : SubConn;
  affinityCnt : Z;   (* int32 *)
  streamsCnt : Z     (* int32 *)
}.

#[global] Instance subConnRef_eq_dec : EqDecision subConnRef.
Proof. solve_decision. Defined.

(** [atomic.AddInt32(&ref.affinityCnt, 1)] and its three siblings. *)
Definition affinityIncr (ref : subConnRef) : subConnRef :=
  mkRef (subConn ref) (int32 (affinityCnt ref + 1)) (streamsCnt ref).

Definition affinityDecr (ref : subConnRef) : subConnRef :=
  mkRef (subConn ref) (int32 (affinityCnt ref + -1)) (streamsCnt ref).

Definition streamsIncr (ref : subConnRef) : subConnRef :=
  mkRef (subConn ref) (affinityCnt ref) (int32 (streamsCnt ref + 1)).

Definition streamsDecr (ref : subConnRef) : subConnRef :=
  mkRef (subConn ref) (affinityCnt ref) (int32 (streamsCnt ref + -1)).

(** ** Results of operations that may dereference a nil pointer *)

Inductive result (A : Type) : Type :=
  | Ok (a : A)
  | Panic.
Arguments Ok {A} a.
Arguments Panic {A}.

Definition rbind {A B : Type} (r : result A) (f : A -> result B) : result B :=
  match r with
  | Ok a => f a
  | Panic => Panic
  end.

(** ** The balancer *)

Module Balancer.
Import Evaluator.

(** [resolver.Address], reduced to its [Addr] field. *)
Abbreviation Address := string.

(** The two errors the balancer hands to [newErrPicker]. *)
Inductive PickErr : Set :=
  | ErrNoSubConnAvailable
  | ErrTransientFailure.

(** The picker published by the balancer: an error picker, or the picker
    built by [newGCPPicker] from the snapshot [readyRefs].  A pointer of the
    snapshot is designated by the handle it is stored under in [scRefs];
    [None] is the nil pointer. *)
Inductive Picker : Set :=
  | errPicker (e : PickErr)
  | gcpPicker (readyRefs : list (option SubConn)).

(** Calls received by the host: the [balancer.ClientConn] and the
    sub-connections it created. *)
Inductive HostCall : Set :=
  | CallNewSubConn (addrs : list Address) (healthCheckEnabled : bool)
  | CallConnect (sc : SubConn)
  | CallUpdateAddresses (sc : SubConn) (addrs : list Address)
  | CallUpdateBalancerState (s : State) (p : Picker).

Definition healthCheckEnabled : bool := true.

Record gcpBalancer : Type := mkBalancer {
  addrs : list Address;
  cc : list HostCall;            (* calls issued so far, the latest first *)
  csEvltr : ConnectivityStateEvaluator;
  state : State;
  affinityMap : gmap string SubConn;
  scStates : gmap SubConn State;
  scRefs : gmap SubConn subConnRef;
  picker : Picker
}.

(** [gcpBalancerBuilder.Build]. *)
Definition Build : gcpBalancer :=
  mkBalancer [] [] zero Idle ∅ ∅ ∅ (errPicker ErrNoSubConnAvailable).

Definition call (c : HostCall) (gb : gcpBalancer) : gcpBalancer :=
  mkBalancer (addrs gb) (c :: cc gb) (csEvltr gb) (state gb)
             (affinityMap gb) (scStates gb) (scRefs gb) (picker gb).

Definition set_addrs (a : list Address) (gb : gcpBalancer) : gcpBalancer :=
  mkBalancer a (cc gb) (csEvltr gb) (state gb)
             (affinityMap gb) (scStates gb) (scRefs gb) (picker gb).

Definition set_affinityMap (m : gmap string SubConn) (gb : gcpBalancer) : gcpBalancer :=
  mkBalancer (addrs gb) (cc gb) (csEvltr gb) (state gb)
             m (scStates gb) (scRefs gb) (picker gb).

Definition set_scStates (m : gmap SubConn State) (gb : gcpBalancer) : gcpBalancer :=
  mkBalancer (addrs gb) (cc gb) (csEvltr gb) (state gb)
             (affinityMap gb) m (scRefs gb) (picker gb).

Definition set_scRefs (m : gmap SubConn subConnRef) (gb : gcpBalancer) : gcpBalancer :=
  mkBalancer (addrs gb) (cc gb) (csEvltr gb) (state gb)
             (affinityMap gb) (scStates gb) m (picker gb).

Definition set_picker (p : Picker) (gb : gcpBalancer) : gcpBalancer :=
  mkBalancer (addrs gb) (cc gb) (csEvltr gb) (state gb)
             (affinityMap gb) (scStates gb) (scRefs gb) p.

Definition set_eval (e : ConnectivityStateEvaluator) (s : State) (gb : gcpBalancer)
  : gcpBalancer :=
  mkBalancer (addrs gb) (cc gb) e s
             (affinityMap gb) (scStates gb) (scRefs gb) (picker gb).

(** [gb.scStates[sc]]: the zero value [Idle] when [sc] is missing. *)
Definition stateOf (gb : gcpBalancer) (sc : SubConn) : State :=
  default Idle (scStates gb !! sc).

(** The scan [for _, scState := range gb.scStates] of [newSubConn]. *)
Definition anyConnecting (gb : gcpBalancer) : bool :=
  existsb (fun kv => bool_decide (snd kv = Connecting)) (map_to_list (scStates gb)).

(** [newSubConn]; [r] is what [gb.cc.NewSubConn] returns when it is called:
    [Some sc] for a new handle, [None] for an error. *)
Definition newSubConn (gb : gcpBalancer) (r : option SubConn) : gcpBalancer :=
  if anyConnecting gb then gb
  else
    let gb := call (CallNewSubConn (addrs gb) healthCheckEnabled) gb in
    match r with
    | None => gb
    | Some sc =>
        let gb := set_scRefs (<[sc := mkRef sc 0 0]> (scRefs gb)) gb in
        let gb := set_scStates (<[sc := Idle]> (scStates gb)) gb in
        call (CallConnect sc) gb
    end.

(** [HandleResolvedAddrs]; [err] tells whether the error is non-nil. *)
Definition HandleResolvedAddrs (gb : gcpBalancer) (a : list Address) (err : bool)
    (r : option SubConn) : gcpBalancer :=
  if err then gb
  else
    let gb := set_addrs a gb in
    if (size (scRefs gb) =? 0)%nat then newSubConn gb r
    else
      fold_left
        (fun g kv =>
           let sc := subConn (snd kv) in
           call (CallConnect sc) (call (CallUpdateAddresses sc a) g))
        (map_to_list (scRefs gb)) gb.

(** [getConnectionPoolSize]. *)
Definition getConnectionPoolSize (gb : gcpBalancer) : nat := size (scRefs gb).

(** [getReadySubConnRef]: the reference (or nil) and the flag. *)
Definition getReadySubConnRef (gb : gcpBalancer) (boundKey : string)
  : option subConnRef * bool :=
  match affinityMap gb !! boundKey with
  | Some sc =>
      if bool_decide (stateOf gb sc <> Ready) then (None, true)
      else (scRefs gb !! sc, true)
  | None => (None, false)
  end.

(** [gb.scRefs[sc].m()] for one of the four counter methods [m]: a nil
    pointer dereference when [sc] has no reference. *)
Definition onRef (m : subConnRef -> subConnRef) (sc : SubConn) (gb : gcpBalancer)
  : result gcpBalancer :=
  match scRefs gb !! sc with
  | Some ref => Ok (set_scRefs (<[sc := m ref]> (scRefs gb)) gb)
  | None => Panic
  end.

(** [bindSubConn]. *)
Definition bindSubConn (gb : gcpBalancer) (bindKey : string) (sc : SubConn)
  : result gcpBalancer :=
  let gb :=
    match affinityMap gb !! bindKey with
    | Some _ => gb
    | None => set_affinityMap (<[bindKey := sc]> (affinityMap gb)) gb
    end in
  onRef affinityIncr sc gb.

(** [unbindSubConn]. *)
Definition unbindSubConn (gb : gcpBalancer) (boundKey : string) : result gcpBalancer :=
  match affinityMap gb !! boundKey with
  | Some boundSC =>
      rbind (onRef affinityDecr boundSC gb) (fun gb =>
        match scRefs gb !! boundSC with
        | Some ref =>
            if affinityCnt ref <=? 0
            then Ok (set_affinityMap (delete boundKey (affinityMap gb)) gb)
            else Ok gb
        | None => Panic
        end)
  | None => Ok gb
  end.

(** [regeneratePicker]; the order of the snapshot is that of the map
    iteration, which Go leaves unspecified. *)
Definition regeneratePicker (gb : gcpBalancer) : gcpBalancer :=
  if decide (state gb = TransientFailure)
  then set_picker (errPicker ErrTransientFailure) gb
  else
    let ready := filter (fun kv => snd kv = Ready) (map_to_list (scStates gb)) in
    let readyRefs := (fun kv => subConn <$> (scRefs gb !! fst kv)) <$> ready in
    set_picker (gcpPicker readyRefs) gb.

(** [HandleSubConnStateChange]. *)
Definition HandleSubConnStateChange (gb : gcpBalancer) (sc : SubConn) (s : State)
  : gcpBalancer :=
  match scStates gb !! sc with
  | None => gb
  | Some oldS =>
      let gb := set_scStates (<[sc := s]> (scStates gb)) gb in
      let gb :=
        match s with
        | Idle => call (CallConnect sc) gb
        | Shutdown =>
            let gb := set_scRefs (delete sc (scRefs gb)) gb in
            set_scStates (delete sc (scStates gb)) gb
        | _ => gb
        end in
      let oldAggrState := state gb in
      let '(cse, st) := RecordTransition (csEvltr gb) oldS s in
      let gb := set_eval cse st gb in
      if negb (eqb (bool_decide (s = Ready)) (bool_decide (oldS = Ready)))
         || negb (eqb (bool_decide (state gb = TransientFailure))
                      (bool_decide (oldAggrState = TransientFailure)))
      then
        let gb := regeneratePicker gb in
        call (CallUpdateBalancerState (state gb) (picker gb)) gb
      else gb
  end.

(** [Close]. *)
Definition Close (gb : gcpBalancer) : gcpBalancer := gb.

(** *** Runs of the balancer

    The operations through which the host and the picker drive the
    balancer, and their execution in sequence from a given balancer. *)

Inductive Op : Type :=
  | OpResolvedAddrs (a : list Address) (err : bool) (r : option SubConn)
  | OpNewSubConn (r : option SubConn)
  | OpBind (key : string) (sc : SubConn)
  | OpUnbind (key : string)
  | OpStateChange (sc : SubConn) (s : State)
  | OpClose.

Definition step (gb : gcpBalancer) (op : Op) : result gcpBalancer :=
  match op with
  | OpResolvedAddrs a err r => Ok (HandleResolvedAddrs gb a err r)
  | OpNewSubConn r => Ok (newSubConn gb r)
  | OpBind key sc => bindSubConn gb key sc
  | OpUnbind key => unbindSubConn gb key
  | OpStateChange sc s => Ok (HandleSubConnStateChange gb sc s)
  | OpClose => Ok (Close gb)
  end.

Fixpoint run (gb : gcpBalancer) (ops : list Op) : result gcpBalancer :=
  match ops with
  | [] => Ok gb
  | op :: rest => rbind (step gb op) (fun gb' => run gb' rest)
  end.

(** Number of tracked connections in state [s]. *)
Definition countState (s : State) (gb : gcpBalancer) : nat :=
  size (filter (fun kv => snd kv = s) (scStates gb)).

(** [affinityCnt] of the reference of [sc], if it has one. *)
Definition affinityOf (gb : gcpBalancer) (sc : SubConn) : option Z :=
  affinityCnt <$> (scRefs gb !! sc).

(** The state map and the reference map track the same handles, and each
    reference is stored under the handle of its own [subConn]. *)
Definition consistent (gb : gcpBalancer) : Prop :=
  (forall sc, is_Some (scStates gb !! sc) <-> is_Some (scRefs gb !! sc)) /\
  (forall sc ref, scRefs gb !! sc = Some ref -> subConn ref = sc).

(** Operations other than a direct call of [newSubConn]: in this file
    [newSubConn] is called by [HandleResolvedAddrs] only. *)
Definition viaHandlers (op : Op) : Prop :=
  match op with
  | OpNewSubConn _ => False
  | _ => True
  end.

(** [op] receives the handle [sc] from [cc.NewSubConn]. *)
Definition receives (sc : SubConn) (op : Op) : Prop :=
  match op with
  | OpNewSubConn (Some sc') | OpResolvedAddrs _ _ (Some sc') => sc' = sc
  | _ => False
  end.

(** [op] is a [bindSubConn] of [key]. *)
Definition bindsKey (key : string) (op : Op) : Prop :=
  match op with
  | OpBind k _ => k = key
  | _ => False
  end.

(** A stale binding: [key] is bound to a handle that is no longer tracked. *)
Definition stale (key : string) (sc : SubConn) (gb : gcpBalancer) : Prop :=
  affinityMap gb !! key = Some sc /\
  scStates gb !! sc = None /\
  scRefs gb !! sc = None.

(** Runs whose every operation satisfies a condition on the balancer it
    is applied to. *)
Fixpoint runWhere (adm : gcpBalancer -> Op -> Prop) (gb : gcpBalancer) (ops : list Op)
  : Prop :=
  match ops with
  | [] => True
  | op :: rest =>
      adm gb op /\
      match step gb op with
      | Ok gb' => runWhere adm gb' rest
      | Panic => True
      end
  end.

(** The host hands out fresh handles: an operation that receives a handle
    from [cc.NewSubConn] receives one that is not tracked at that moment. *)
Definition fresh (gb : gcpBalancer) (op : Op) : Prop :=
  forall sc, receives sc op -> scStates gb !! sc = None.

Definition freshRun : gcpBalancer -> list Op -> Prop := runWhere fresh.

(** Uses of the affinity table in which the count of a connection belongs
    to one key: handles are fresh, a key is bound only to a connection that
    no other key is bound to, a connection is not shut down while a key is
    bound to it, and no count is at the top of [int32]. *)
Definition exclusive (gb : gcpBalancer) (op : Op) : Prop :=
  fresh gb op /\
  match op with
  | OpBind key sc =>
      (affinityMap gb !! key = None ->
       forall k, affinityMap gb !! k <> Some sc) /\
      (forall ref, scRefs gb !! sc = Some ref -> affinityCnt ref < 2 ^ 31 - 1)
  | OpStateChange sc Shutdown => forall k, affinityMap gb !! k <> Some sc
  | _ => True
  end.

(** A key is in the affinity table iff the connection it maps to has a
    strictly positive [affinityCnt]. *)
Definition presentIffPositive (gb : gcpBalancer) : Prop :=
  forall key,
    is_Some (affinityMap gb !! key) <->
    exists sc ref,
      affinityMap gb !! key = Some sc /\ scRefs gb !! sc = Some ref /\
      0 < affinityCnt ref.

(** What exclusive uses maintain. *)
Definition affinityInv (gb : gcpBalancer) : Prop :=
  consistent gb /\
  (forall sc ref, scRefs gb !! sc = Some ref -> 0 <= affinityCnt ref < 2 ^ 31) /\
  (forall key sc, affinityMap gb !! key = Some sc ->
     exists ref, scRefs gb !! sc = Some ref /\ 0 < affinityCnt ref) /\
  (forall k1 k2 sc, affinityMap gb !! k1 = Some sc ->
     affinityMap gb !! k2 = Some sc -> k1 = k2).

(** A key that is bound is bound again only to the connection it is bound
    to. *)
Definition sameTarget (gb : gcpBalancer) (op : Op) : Prop :=
  match op with
  | OpBind key sc => forall sc0, affinityMap gb !! key = Some sc0 -> sc0 = sc
  | _ => True
  end.

(** Every tracked connection with a strictly positive [affinityCnt] has a
    key mapped to it in the affinity table. *)
Definition positiveHasKey (gb : gcpBalancer) : Prop :=
  forall sc ref,
    scRefs gb !! sc = Some ref -> 0 < affinityCnt ref ->
    exists key, affinityMap gb !! key = Some sc.

(** The counters of the evaluator are the numbers of tracked connections
    in the three states, modulo 2^64. *)
Definition counted (gb : gcpBalancer) : Prop :=
  wf (csEvltr gb) /\
  forall s c, counter (csEvltr gb) s = Some c ->
              c = uint64 (Z.of_nat (countState s gb)).

(** The aggregation rule, read on the tracked connections. *)
Definition aggregated (gb : gcpBalancer) : Prop :=
  let some s := exists sc, scStates gb !! sc = Some s in
  (state gb = Ready <-> some Ready) /\
  (~ some Ready -> (state gb = Connecting <-> some Connecting)) /\
  (~ some Ready -> ~ some Connecting -> state gb = TransientFailure).

(** At most one tracked connection is in [Connecting]. *)
Definition atMostOneConnecting (gb : gcpBalancer) : Prop :=
  (countState Connecting gb <= 1)%nat.

(** [cs] put in front of the calls received by the host, the latest
    first. *)
Definition withCalls (cs : list HostCall) (gb : gcpBalancer) : gcpBalancer :=
  mkBalancer (addrs gb) (cs ++ cc gb) (csEvltr gb) (state gb)
             (affinityMap gb) (scStates gb) (scRefs gb) (picker gb).

(** The calls [HandleResolvedAddrs] sends to the connection of one
    reference, in the order they are sent. *)
Definition refreshCalls (a : list Address) (kv : SubConn * subConnRef)
  : list HostCall :=
  [CallUpdateAddresses (subConn (snd kv)) a; CallConnect (subConn (snd kv))].

(** The handles of the snapshot a picker was built from; an error picker
    has none. *)
Definition readyRefsOf (p : Picker) : list (option SubConn) :=
  match p with
  | errPicker _ => []
  | gcpPicker l => l
  end.

(** [l] lists, once each, the tracked connections in state [Ready]. *)
Definition listsReady (gb : gcpBalancer) (l : list (option SubConn)) : Prop :=
  NoDup l /\
  forall x, x ∈ l <-> exists sc, x = Some sc /\ scStates gb !! sc = Some Ready.

(** The condition under which [HandleSubConnStateChange] regenerates the
    picker and calls [UpdateBalancerState]. *)
Definition flips (oldS s oldAggr newAggr : State) : Prop :=
  ~ (s = Ready <-> oldS = Ready) \/
  ~ (newAggr = TransientFailure <-> oldAggr = TransientFailure).

(** The [sc.Connect()] of the [Idle] case of [HandleSubConnStateChange]. *)
Definition reconnect (sc : SubConn) (s : State) : list HostCall :=
  match s with
  | Idle => [CallConnect sc]
  | _ => []
  end.

(** The state and picker of the latest [UpdateBalancerState] among the
    calls [cs] (the latest call first), if there is one. *)
Fixpoint lastPublished (cs : list HostCall) : option (State * Picker) :=
  match cs with
  | [] => None
  | CallUpdateBalancerState s p :: _ => Some (s, p)
  | _ :: rest => lastPublished rest
  end.

(** What the host knows of the balancer: the picker of the latest
    publication is the current picker and its state is [TransientFailure]
    iff the current aggregated state is; before the first publication the
    picker is the one set by [Build] and the state is not
    [TransientFailure]. *)
Definition hostInSync (gb : gcpBalancer) : Prop :=
  match lastPublished (cc gb) with
  | Some (s, p) =>
      p = picker gb /\ (s = TransientFailure <-> state gb = TransientFailure)
  | None =>
      picker gb = errPicker ErrNoSubConnAvailable /\
      state gb <> TransientFailure
  end.

(** The constants [defaultMaxConn] and [defaultMaxStream]; no function of
    the balancer reads them. *)
Definition defaultMaxConn : nat := 10.
Definition defaultMaxStream : nat := 100.

(** [newSubConn] called once for each handle of [l], the host returning the
    handles in that order. *)
Definition createAll (gb : gcpBalancer) (l : list SubConn) : gcpBalancer :=
  fold_left (fun g sc => newSubConn g (Some sc)) l gb.

End Balancer.

(** * Properties *)

(** ** Machine arithmetic *)

Lemma uint64_range z : 0 <= uint64 z < 2 ^ 64.
Proof. unfold uint64. apply Z.mod_pos_bound. reflexivity. Qed.

Lemma uint64_small z : 0 <= z < 2 ^ 64 -> uint64 z = z.
Proof. intros H. unfold uint64. now apply Z.mod_small. Qed.

Lemma uint64_add_l a b : uint64 (uint64 a + b) = uint64 (a + b).
Proof. unfold uint64. apply Zplus_mod_idemp_l. Qed.

Lemma uint64_minus_one a : uint64 (a + (2 ^ 64 - 1)) = uint64 (a - 1).
Proof.
  unfold uint64.
  replace (a + (2 ^ 64 - 1)) with (a - 1 + 1 * 2 ^ 64) by ring.
  apply Z_mod_plus_full.
Qed.

Lemma uint64_pos_iff z : 0 <= z < 2 ^ 64 -> (0 <? uint64 z) = (0 <? z).
Proof. intros H. now rewrite uint64_small. Qed.

Lemma int32_small z : - 2 ^ 31 <= z < 2 ^ 31 -> int32 z = z.
Proof.
  intros H. unfold int32. rewrite Z.mod_small; [ring|].
  change (2 ^ 32) with (2 ^ 31 + 2 ^ 31). lia.
Qed.

(** ** The evaluator *)

Section EvaluatorFacts.
Import Evaluator.

Lemma updateVal_old : updateVal 0 = 2 ^ 64 - 1.
Proof. reflexivity. Qed.

Lemma updateVal_new : updateVal 1 = 1.
Proof. reflexivity. Qed.

Lemma ind_cases s t : (s = t /\ ind s t = 1) \/ (s <> t /\ ind s t = 0).
Proof. unfold ind. destruct (decide (s = t)); auto. Qed.

Lemma update_wf cse st v : wf cse -> wf (update cse st v).
Proof.
  intros (Hr & Hc & Ht).
  destruct st; unfold wf; simpl; auto using uint64_range.
Qed.

Lemma update_counter cse st v s c :
  wf cse -> counter cse s = Some c ->
  counter (update cse st v) s = Some (uint64 (c + ind st s * v)).
Proof.
  intros (Hr & Hc & Ht) Hs.
  destruct s; simpl in Hs; try discriminate; injection Hs as <-;
    destruct st; simpl; f_equal;
    rewrite ?Z.mul_0_l, ?Z.mul_1_l, ?Z.add_0_r; try reflexivity;
    symmetry; now apply uint64_small.
Qed.

Lemma counter_is_Some cse s :
  s = Ready \/ s = Connecting \/ s = TransientFailure ->
  exists c, counter cse s = Some c.
Proof. intros [-> | [-> | ->]]; simpl; eauto. Qed.

Lemma RecordTransition_wf cse o n : wf cse -> wf (fst (RecordTransition cse o n)).
Proof. intros H. simpl. auto using update_wf. Qed.

Lemma RecordTransition_counter cse o n s c :
  wf cse -> counter cse s = Some c ->
  counter (fst (RecordTransition cse o n)) s = Some (uint64 (c - ind o s + ind n s)).
Proof.
  intros Hwf Hs. simpl.
  change (0 + 1) with 1. rewrite updateVal_old, updateVal_new.
  rewrite (update_counter _ n 1 s (uint64 (c + ind o s * (2 ^ 64 - 1)))).
  - f_equal. rewrite uint64_add_l, Z.mul_1_r.
    destruct (ind_cases o s) as [[_ ->] | [_ ->]].
    + rewrite Z.mul_1_l.
      replace (c + (2 ^ 64 - 1) + ind n s) with (c + ind n s + (2 ^ 64 - 1)) by ring.
      rewrite uint64_minus_one. apply f_equal. ring.
    + apply f_equal. ring.
  - now apply update_wf.
  - now apply update_counter.
Qed.

Lemma feed_app cse ps qs : feed cse (ps ++ qs) = feed (feed cse ps) qs.
Proof. unfold feed. apply fold_left_app. Qed.

Lemma feed_wf ps : forall cse, wf cse -> wf (feed cse ps).
Proof.
  induction ps as [|[o n] ps IH]; intros cse H; [exact H|].
  apply IH. now apply RecordTransition_wf.
Qed.

Lemma zero_wf : wf zero.
Proof. unfold wf, zero; simpl. repeat split; try lia; reflexivity. Qed.

(** After feeding [ps], each counter is the number of connections the
    transitions leave in its state, modulo 2^64. *)
Lemma feed_counter ps : forall cse s c,
  wf cse -> counter cse s = Some c ->
  counter (feed cse ps) s = Some (uint64 (c + tracked s ps)).
Proof.
  induction ps as [|[o n] ps IH]; intros cse s c Hwf Hs.
  - simpl. rewrite Z.add_0_r, Hs. f_equal. symmetry.
    destruct Hwf as (Hr & Hc & Ht).
    destruct s; simpl in Hs; try discriminate; injection Hs as <-;
      now apply uint64_small.
  - change (feed cse ((o, n) :: ps))
      with (feed (fst (RecordTransition cse o n)) ps).
    rewrite (IH _ s (uint64 (c - ind o s + ind n s))).
    + apply f_equal. rewrite uint64_add_l. apply f_equal. simpl. ring.
    + now apply RecordTransition_wf.
    + now apply RecordTransition_counter.
Qed.

Lemma tracked_app s ps qs : tracked s (ps ++ qs) = tracked s ps + tracked s qs.
Proof.
  induction ps as [|[o n] ps IH]; simpl; [reflexivity|]. rewrite IH. ring.
Qed.

Lemma lastReturn_evaluate ps p : lastReturn ps p = evaluate (feed zero (ps ++ [p])).
Proof. rewrite feed_app. destruct p as [o n]. reflexivity. Qed.

End EvaluatorFacts.

(** ** Claims on the evaluator *)

Section EvaluatorClaims.
Import Evaluator.

(** C2: the evaluator keeps three counters in the range of [uint64];
    [RecordTransition old new] is defined for every pair, decrements the
    counter of [old] and increments the counter of [new] modulo 2^64,
    [Idle] and [Shutdown] having no counter; for [old = new] the counters
    are unchanged. *)
Theorem C2_RecordTransition_counters
    (cse : ConnectivityStateEvaluator) (old new : State) :
  wf cse ->
  exists cse' r,
    RecordTransition cse old new = (cse', r) /\
    wf cse' /\
    (forall s c, counter cse s = Some c ->
       counter cse' s = Some (uint64 (c - ind old s + ind new s))) /\
    (forall s, counter cse s = None <-> s = Idle \/ s = Shutdown) /\
    (counter cse old = Some 0 -> old <> new ->
       counter cse' old = Some (2 ^ 64 - 1)) /\
    (old = new -> cse' = cse).
Proof.
  intros Hwf.
  exists (fst (RecordTransition cse old new)), (snd (RecordTransition cse old new)).
  split; [reflexivity|]. split; [now apply RecordTransition_wf|].
  split; [intros s c; now apply RecordTransition_counter|].
  split.
  { intros s; destruct s; simpl; split; intros H; try discriminate; auto;
      destruct H; discriminate. }
  split.
  { intros H0 Hne. rewrite (RecordTransition_counter cse old new old 0 Hwf H0).
    destruct (ind_cases old old) as [[_ ->] | [? _]]; [|congruence].
    destruct (ind_cases new old) as [[? _] | [_ ->]]; [congruence|].
    reflexivity. }
  intros <-.
  destruct cse as [a b c]; destruct Hwf as (Ha & Hb & Hc); simpl in *.
  change (0 + 1) with 1. rewrite updateVal_old, updateVal_new.
  destruct old; simpl; try reflexivity;
    rewrite uint64_add_l;
    match goal with
    | |- context [uint64 (?x + (2 ^ 64 - 1) + 1)] =>
        replace (x + (2 ^ 64 - 1) + 1) with (x + 1 + (2 ^ 64 - 1)) by ring;
        rewrite uint64_minus_one;
        replace (x + 1 - 1) with x by ring;
        rewrite (uint64_small x) by assumption
    end; reflexivity.
Qed.

Lemma C2_RecordTransition_witness :
  exists cse' r,
    RecordTransition zero Ready Connecting = (cse', r) /\
    wf cse' /\
    (forall s c, counter zero s = Some c ->
       counter cse' s = Some (uint64 (c - ind Ready s + ind Connecting s))) /\
    (forall s, counter zero s = None <-> s = Idle \/ s = Shutdown) /\
    (counter zero Ready = Some 0 -> Ready <> Connecting ->
       counter cse' Ready = Some (2 ^ 64 - 1)) /\
    (Ready = Connecting -> cse' = zero).
Proof. exact (C2_RecordTransition_counters zero Ready Connecting zero_wf). Defined.

End EvaluatorClaims.

(** ** The affinity table *)

Section AffinityFacts.
Import Evaluator Balancer.

Lemma onRef_Some m sc gb ref :
  scRefs gb !! sc = Some ref ->
  onRef m sc gb = Ok (set_scRefs (<[sc := m ref]> (scRefs gb)) gb).
Proof. intros H. unfold onRef. now rewrite H. Qed.

Lemma onRef_None m sc gb : scRefs gb !! sc = None -> onRef m sc gb = Panic.
Proof. intros H. unfold onRef. now rewrite H. Qed.

(** What [bindSubConn] computes when the handle has a reference. *)
Lemma bindSubConn_Some gb key sc ref :
  scRefs gb !! sc = Some ref ->
  bindSubConn gb key sc =
    Ok (set_scRefs (<[sc := affinityIncr ref]> (scRefs gb))
          (match affinityMap gb !! key with
           | Some _ => gb
           | None => set_affinityMap (<[key := sc]> (affinityMap gb)) gb
           end)).
Proof.
  intros H. unfold bindSubConn.
  destruct (affinityMap gb !! key); now rewrite (onRef_Some _ _ _ ref).
Qed.

(** What [unbindSubConn] computes on a bound key whose handle has a
    reference. *)
Lemma unbindSubConn_Some gb key sc ref :
  affinityMap gb !! key = Some sc ->
  scRefs gb !! sc = Some ref ->
  unbindSubConn gb key =
    Ok (let gb1 := set_scRefs (<[sc := affinityDecr ref]> (scRefs gb)) gb in
        if affinityCnt (affinityDecr ref) <=? 0
        then set_affinityMap (delete key (affinityMap gb)) gb1
        else gb1).
Proof.
  intros Hk Hr. unfold unbindSubConn. rewrite Hk, (onRef_Some _ _ _ ref Hr).
  simpl. rewrite lookup_insert_eq. simpl.
  now destruct (int32 (affinityCnt ref + -1) <=? 0).
Qed.

Lemma unbindSubConn_unbound gb key :
  affinityMap gb !! key = None -> unbindSubConn gb key = Ok gb.
Proof. intros H. unfold unbindSubConn. now rewrite H. Qed.

(** A key bound to a handle without reference: the dereference of
    [gb.scRefs[boundSC]] panics. *)
Lemma unbindSubConn_stale gb key sc :
  affinityMap gb !! key = Some sc ->
  scRefs gb !! sc = None ->
  unbindSubConn gb key = Panic.
Proof.
  intros Hk Hr. unfold unbindSubConn. now rewrite Hk, (onRef_None _ _ _ Hr).
Qed.

End AffinityFacts.

Section AffinityClaims.
Import Evaluator Balancer.

(** C3: for every key and every handle that has a reference,
    [bindSubConn key handle] succeeds, inserts the mapping key -> handle
    only when the key is unbound (an existing mapping is kept, also when it
    leads to another handle), and in every case adds one to the
    [affinityCnt] of the handle's reference (an [int32] addition), all other
    references and the connection states being unchanged. *)
Theorem C3_bindSubConn_inserts_if_unbound_and_increments
    (gb : gcpBalancer) (key : string) (sc : SubConn) (ref : subConnRef) :
  scRefs gb !! sc = Some ref ->
  exists gb',
    bindSubConn gb key sc = Ok gb' /\
    (affinityMap gb !! key = None ->
       affinityMap gb' = <[key := sc]> (affinityMap gb)) /\
    (forall sc0, affinityMap gb !! key = Some sc0 ->
       affinityMap gb' = affinityMap gb /\ affinityMap gb' !! key = Some sc0) /\
    scRefs gb' !! sc =
      Some (mkRef (subConn ref) (int32 (affinityCnt ref + 1)) (streamsCnt ref)) /\
    (- 2 ^ 31 <= affinityCnt ref < 2 ^ 31 - 1 ->
       affinityOf gb' sc = Some (affinityCnt ref + 1)) /\
    (forall sc', sc' <> sc -> scRefs gb' !! sc' = scRefs gb !! sc') /\
    scStates gb' = scStates gb.
Proof.
  intros Href. eexists. split; [apply (bindSubConn_Some gb key sc ref Href)|].
  repeat split.
  - intros ->. reflexivity.
  - destruct (affinityMap gb !! key); [reflexivity | discriminate].
  - destruct (affinityMap gb !! key) eqn:E; [simpl; congruence | discriminate].
  - simpl. now rewrite lookup_insert_eq.
  - intros Hrange. unfold affinityOf. simpl. rewrite lookup_insert_eq. simpl.
    f_equal. apply int32_small. lia.
  - intros sc' Hne. simpl. now rewrite lookup_insert_ne.
  - now destruct (affinityMap gb !! key).
Qed.

Lemma C3_bindSubConn_witness :
  exists gb',
    bindSubConn (newSubConn (newSubConn Build (Some 1%nat)) (Some 2%nat))
                "session1" 2%nat = Ok gb' /\
    affinityMap gb' !! "session1" = Some 2%nat /\
    affinityOf gb' 2%nat = Some 1.
Proof.
  destruct (C3_bindSubConn_inserts_if_unbound_and_increments
              (newSubConn (newSubConn Build (Some 1%nat)) (Some 2%nat))
              "session1" 2%nat (mkRef 2%nat 0 0) eq_refl)
    as (gb' & Hb & Hnew & _ & _ & Hcnt & _).
  exists gb'. split; [exact Hb|]. split.
  - rewrite (Hnew eq_refl). reflexivity.
  - apply Hcnt. simpl. lia.
Defined.

(** C4: from an empty affinity table and a connection C whose count is 0,
    binding "session1" to C twice gives C the count 2 with the mapping
    present; one unbind gives the count 1 and keeps the mapping; a second
    unbind removes the mapping.  In general [unbindSubConn key], on a key
    bound to a handle that has a reference, subtracts one from that
    reference's [affinityCnt] and removes the mapping exactly when the new
    count is <= 0; on an unbound key it changes nothing. *)
Theorem C4_unbindSubConn_decrements_and_removes_at_zero
    (gb : gcpBalancer) (key : string) (C : SubConn) (ref : subConnRef) :
  (affinityMap gb = ∅ -> scRefs gb !! C = Some ref -> affinityCnt ref = 0 ->
   exists g2 g3 g4,
     run gb [OpBind "session1" C; OpBind "session1" C] = Ok g2 /\
     affinityOf g2 C = Some 2 /\ affinityMap g2 !! "session1" = Some C /\
     unbindSubConn g2 "session1" = Ok g3 /\
     affinityOf g3 C = Some 1 /\ affinityMap g3 !! "session1" = Some C /\
     unbindSubConn g3 "session1" = Ok g4 /\
     affinityOf g4 C = Some 0 /\ affinityMap g4 !! "session1" = None) /\
  (affinityMap gb !! key = Some C -> scRefs gb !! C = Some ref ->
   exists gb',
     unbindSubConn gb key = Ok gb' /\
     affinityOf gb' C = Some (int32 (affinityCnt ref - 1)) /\
     (int32 (affinityCnt ref - 1) <= 0 ->
        affinityMap gb' = delete key (affinityMap gb)) /\
     (0 < int32 (affinityCnt ref - 1) -> affinityMap gb' = affinityMap gb) /\
     (forall sc', sc' <> C -> scRefs gb' !! sc' = scRefs gb !! sc') /\
     scStates gb' = scStates gb) /\
  (affinityMap gb !! key = None -> unbindSubConn gb key = Ok gb).
Proof.
  split; [|split].
  - intros Hempty Href Hzero.
    destruct ref as [h a s]. simpl in Hzero. subst a.
    eexists _, _, _. simpl run.
    rewrite (bindSubConn_Some gb _ C _ Href), Hempty, lookup_empty. simpl rbind.
    erewrite bindSubConn_Some by (simpl; apply lookup_insert_eq).
    simpl. rewrite lookup_insert_eq.
    split; [reflexivity|].
    split; [unfold affinityOf; simpl; now rewrite lookup_insert_eq|].
    split; [simpl; now rewrite lookup_insert_eq|].
    erewrite unbindSubConn_Some;
      [| simpl; apply lookup_insert_eq | simpl; apply lookup_insert_eq].
    simpl. split; [reflexivity|].
    split; [unfold affinityOf; simpl; now rewrite lookup_insert_eq|].
    split; [simpl; now rewrite lookup_insert_eq|].
    erewrite unbindSubConn_Some;
      [| simpl; apply lookup_insert_eq | simpl; apply lookup_insert_eq].
    simpl. split; [reflexivity|].
    split; [unfold affinityOf; simpl; now rewrite lookup_insert_eq|].
    simpl. apply lookup_delete_eq.
  - intros Hk Href. eexists.
    split; [apply (unbindSubConn_Some gb key C ref Hk Href)|].
    cbv zeta. simpl affinityCnt.
    replace (affinityCnt ref + -1) with (affinityCnt ref - 1) by ring.
    destruct (Z.leb_spec (int32 (affinityCnt ref - 1)) 0) as [Hle|Hlt];
      (split; [unfold affinityOf; simpl; now rewrite lookup_insert_eq|]);
      (split; [intros ?; try reflexivity; lia|]);
      (split; [intros ?; try reflexivity; lia|]);
      (split; [intros sc' Hne; simpl; now rewrite lookup_insert_ne | reflexivity]).
  - apply unbindSubConn_unbound.
Qed.

Lemma C4_unbindSubConn_witness :
  (exists g2 g3 g4,
     run (newSubConn Build (Some 1%nat))
         [OpBind "session1" 1%nat; OpBind "session1" 1%nat] = Ok g2 /\
     affinityOf g2 1%nat = Some 2 /\ affinityMap g2 !! "session1" = Some 1%nat /\
     unbindSubConn g2 "session1" = Ok g3 /\
     affinityOf g3 1%nat = Some 1 /\ affinityMap g3 !! "session1" = Some 1%nat /\
     unbindSubConn g3 "session1" = Ok g4 /\
     affinityOf g4 1%nat = Some 0 /\ affinityMap g4 !! "session1" = None) /\
  (exists gb',
     unbindSubConn
       (set_affinityMap {[ "session1" := 1%nat ]}
          (set_scRefs {[ 1%nat := mkRef 1%nat 1 0 ]} Build)) "session1" = Ok gb' /\
     affinityOf gb' 1%nat = Some 0 /\
     affinityMap gb' = delete "session1" {[ "session1" := 1%nat ]}) /\
  unbindSubConn (newSubConn Build (Some 1%nat)) "session1"
    = Ok (newSubConn Build (Some 1%nat)).
Proof.
  destruct (C4_unbindSubConn_decrements_and_removes_at_zero
              (newSubConn Build (Some 1%nat)) "session1" 1%nat (mkRef 1%nat 0 0))
    as (Hscenario & _ & Hunbound).
  destruct (C4_unbindSubConn_decrements_and_removes_at_zero
              (set_affinityMap {[ "session1" := 1%nat ]}
                 (set_scRefs {[ 1%nat := mkRef 1%nat 1 0 ]} Build))
              "session1" 1%nat (mkRef 1%nat 1 0))
    as (_ & Hbound & _).
  split; [|split].
  - apply Hscenario; reflexivity.
  - destruct (Hbound eq_refl eq_refl) as (gb' & Hu & Hcnt & Hdel & _).
    exists gb'. split; [exact Hu|]. split; [exact Hcnt|].
    apply Hdel. vm_compute. discriminate.
  - apply Hunbound. reflexivity.
Defined.

End AffinityClaims.

(** ** Effect of the pool operations on the three maps *)

Section PoolFacts.
Import Evaluator Balancer.

Lemma anyConnecting_true gb :
  anyConnecting gb = true <-> exists sc, scStates gb !! sc = Some Connecting.
Proof.
  unfold anyConnecting. rewrite existsb_exists. split.
  - intros ([sc s] & Hin & Hs). apply bool_decide_eq_true in Hs. simpl in Hs.
    subst s. exists sc. apply elem_of_map_to_list. now apply list_elem_of_In.
  - intros (sc & Hsc). exists (sc, Connecting). split.
    + apply list_elem_of_In. now apply elem_of_map_to_list.
    + now apply bool_decide_eq_true.
Qed.

(** [newSubConn] either leaves the maps alone or registers the handle it
    received, with zero counts and in state [Idle]. *)
Lemma newSubConn_maps gb r :
  affinityMap (newSubConn gb r) = affinityMap gb /\
  ((scStates (newSubConn gb r) = scStates gb /\
    scRefs (newSubConn gb r) = scRefs gb) \/
   (exists sc, r = Some sc /\ anyConnecting gb = false /\
      scStates (newSubConn gb r) = <[sc := Idle]> (scStates gb) /\
      scRefs (newSubConn gb r) = <[sc := mkRef sc 0 0]> (scRefs gb))).
Proof.
  unfold newSubConn. destruct (anyConnecting gb) eqn:E; [auto|].
  destruct r as [sc|]; simpl; [|auto].
  split; [reflexivity|]. right. exists sc. auto.
Qed.

Lemma calls_maps (cs : list HostCall) gb :
  let gb' := fold_right call gb cs in
  affinityMap gb' = affinityMap gb /\ scStates gb' = scStates gb /\
  scRefs gb' = scRefs gb /\ csEvltr gb' = csEvltr gb /\ state gb' = state gb.
Proof. induction cs as [|c cs IH]; simpl; auto. Qed.

Lemma fold_calls_maps (f : gcpBalancer -> nat * subConnRef -> list HostCall)
    (l : list (nat * subConnRef)) : forall gb,
  let gb' := fold_left (fun g kv => fold_right call g (f g kv)) l gb in
  affinityMap gb' = affinityMap gb /\ scStates gb' = scStates gb /\
  scRefs gb' = scRefs gb /\ csEvltr gb' = csEvltr gb /\ state gb' = state gb.
Proof.
  induction l as [|kv l IH]; intros gb; simpl; [auto|].
  destruct (IH (fold_right call gb (f gb kv))) as (A & B & C & D & E).
  rewrite A, B, C, D, E. apply calls_maps.
Qed.

Lemma HandleResolvedAddrs_maps gb a err r :
  let gb' := HandleResolvedAddrs gb a err r in
  affinityMap gb' = affinityMap gb /\
  ((scStates gb' = scStates gb /\ scRefs gb' = scRefs gb) \/
   (exists sc, r = Some sc /\ size (scRefs gb) = 0%nat /\
      scStates gb' = <[sc := Idle]> (scStates gb) /\
      scRefs gb' = <[sc := mkRef sc 0 0]> (scRefs gb))).
Proof.
  unfold HandleResolvedAddrs. destruct err; [simpl; auto|].
  cbv zeta. change (scRefs (set_addrs a gb)) with (scRefs gb).
  destruct (Nat.eqb_spec (size (scRefs gb)) 0) as [Hz|Hnz].
  - destruct (newSubConn_maps (set_addrs a gb) r) as (A & [[B C] | (sc & -> & _ & B & C)]).
    + rewrite A, B, C. auto.
    + rewrite A, B, C. split; [reflexivity|]. right. exists sc. auto.
  - pose proof (fold_calls_maps
        (fun _ kv => [CallConnect (subConn (snd kv));
                      CallUpdateAddresses (subConn (snd kv)) a])
        (map_to_list (scRefs gb)) (set_addrs a gb)) as (A & B & C & _).
    simpl in A, B, C. rewrite A, B, C. auto.
Qed.

Lemma regeneratePicker_maps gb :
  affinityMap (regeneratePicker gb) = affinityMap gb /\
  scStates (regeneratePicker gb) = scStates gb /\
  scRefs (regeneratePicker gb) = scRefs gb /\
  state (regeneratePicker gb) = state gb /\
  csEvltr (regeneratePicker gb) = csEvltr gb.
Proof. unfold regeneratePicker. destruct (decide _); simpl; auto. Qed.

(** [HandleSubConnStateChange] ignores an unknown handle; for a tracked one
    it records the new state, or forgets the handle on [Shutdown]. *)
Lemma HandleSubConnStateChange_maps gb sc s :
  let gb' := HandleSubConnStateChange gb sc s in
  affinityMap gb' = affinityMap gb /\
  match scStates gb !! sc with
  | None => gb' = gb
  | Some _ =>
      if decide (s = Shutdown)
      then scStates gb' = delete sc (scStates gb) /\
           scRefs gb' = delete sc (scRefs gb)
      else scStates gb' = <[sc := s]> (scStates gb) /\
           scRefs gb' = scRefs gb
  end.
Proof.
  unfold HandleSubConnStateChange.
  destruct (scStates gb !! sc) as [oldS|] eqn:E; [|simpl; auto].
  cbv zeta.
  match goal with
  | |- context [RecordTransition ?c ?o ?n] =>
      destruct (RecordTransition c o n) as [cse st]
  end.
  match goal with
  | |- context [if ?b then _ else _] => destruct b
  end.
  - match goal with
    | |- context [regeneratePicker ?g] =>
        destruct (regeneratePicker_maps g) as (A & B & C & _)
    end.
    cbn [call affinityMap scStates scRefs]. rewrite A, B, C.
    destruct s; simpl; rewrite ?delete_insert_eq; auto.
  - destruct s; simpl; rewrite ?delete_insert_eq; auto.
Qed.

End PoolFacts.

(** ** Invariants of runs *)

Section RunFacts.
Import Evaluator Balancer.

(** A property kept by every successful step of a class of operations is
    kept by every successful run of such operations. *)
Lemma run_invariant (P : gcpBalancer -> Prop) (Q : Op -> Prop) :
  (forall gb op gb', Q op -> P gb -> step gb op = Ok gb' -> P gb') ->
  forall ops gb gb', Forall Q ops -> P gb -> run gb ops = Ok gb' -> P gb'.
Proof.
  intros Hstep ops. induction ops as [|op ops IH]; intros gb gb' HQ HP Hrun.
  - simpl in Hrun. now injection Hrun as <-.
  - simpl in Hrun. destruct (step gb op) as [gb1|] eqn:E; [|discriminate].
    simpl in Hrun. apply Forall_cons in HQ as [Hop Hops].
    apply (IH gb1); eauto.
Qed.

Lemma runWhere_invariant (P : gcpBalancer -> Prop)
    (adm : gcpBalancer -> Op -> Prop) :
  (forall gb op gb', adm gb op -> P gb -> step gb op = Ok gb' -> P gb') ->
  forall ops gb gb', runWhere adm gb ops -> P gb -> run gb ops = Ok gb' -> P gb'.
Proof.
  intros Hstep ops. induction ops as [|op ops IH]; intros gb gb' Hadm HP Hrun.
  - simpl in Hrun. now injection Hrun as <-.
  - simpl in Hrun, Hadm. destruct Hadm as [Hop Hrest].
    destruct (step gb op) as [gb1|] eqn:E; [|discriminate].
    simpl in Hrun. apply (IH gb1); eauto.
Qed.

Lemma run_app gb ops1 ops2 :
  run gb (ops1 ++ ops2) = rbind (run gb ops1) (fun g => run g ops2).
Proof.
  revert gb. induction ops1 as [|op ops1 IH]; intros gb; simpl; [reflexivity|].
  destruct (step gb op); simpl; auto.
Qed.

Lemma bindSubConn_None gb key sc :
  scRefs gb !! sc = None -> bindSubConn gb key sc = Panic.
Proof.
  intros H. unfold bindSubConn.
  destruct (affinityMap gb !! key); now apply onRef_None.
Qed.

(** The successful outcomes of [bindSubConn]. *)
Lemma bindSubConn_Ok gb key sc gb' :
  bindSubConn gb key sc = Ok gb' ->
  exists ref,
    scRefs gb !! sc = Some ref /\
    scRefs gb' = <[sc := affinityIncr ref]> (scRefs gb) /\
    scStates gb' = scStates gb /\
    affinityMap gb' =
      match affinityMap gb !! key with
      | Some _ => affinityMap gb
      | None => <[key := sc]> (affinityMap gb)
      end.
Proof.
  intros H. destruct (scRefs gb !! sc) as [ref|] eqn:E.
  - rewrite (bindSubConn_Some gb key sc ref E) in H. injection H as <-.
    exists ref. destruct (affinityMap gb !! key); simpl; repeat split; auto.
  - now rewrite (bindSubConn_None gb key sc E) in H.
Qed.

(** The successful outcomes of [unbindSubConn]. *)
Lemma unbindSubConn_Ok gb key gb' :
  unbindSubConn gb key = Ok gb' ->
  (affinityMap gb !! key = None /\ gb' = gb) \/
  (exists sc ref,
     affinityMap gb !! key = Some sc /\ scRefs gb !! sc = Some ref /\
     scRefs gb' = <[sc := affinityDecr ref]> (scRefs gb) /\
     scStates gb' = scStates gb /\
     affinityMap gb' =
       if affinityCnt (affinityDecr ref) <=? 0
       then delete key (affinityMap gb) else affinityMap gb).
Proof.
  intros H. destruct (affinityMap gb !! key) as [sc|] eqn:Ek.
  - destruct (scRefs gb !! sc) as [ref|] eqn:Er.
    + rewrite (unbindSubConn_Some gb key sc ref Ek Er) in H. injection H as <-.
      right. exists sc, ref. cbv zeta. simpl affinityCnt.
      destruct (int32 (affinityCnt ref + -1) <=? 0); simpl; repeat split; auto.
    + now rewrite (unbindSubConn_stale gb key sc Ek Er) in H.
  - rewrite (unbindSubConn_unbound gb key Ek) in H. injection H as <-. auto.
Qed.

Lemma is_Some_insert_present {A} (m : gmap nat A) i x j :
  is_Some (m !! i) -> is_Some (<[i := x]> m !! j) <-> is_Some (m !! j).
Proof.
  intros Hi. destruct (decide (i = j)) as [->|Hne].
  - rewrite lookup_insert_eq. split; eauto.
  - now rewrite lookup_insert_ne.
Qed.

Lemma consistent_Build : consistent Build.
Proof.
  split; simpl.
  - intros sc. rewrite !lookup_empty. split; intros [? ?]; discriminate.
  - intros sc ref. rewrite lookup_empty. discriminate.
Qed.

Lemma consistent_register gb gb' sc :
  consistent gb ->
  scStates gb' = <[sc := Idle]> (scStates gb) ->
  scRefs gb' = <[sc := mkRef sc 0 0]> (scRefs gb) ->
  consistent gb'.
Proof.
  intros [Hdom Hown] Hs Hr. unfold consistent. rewrite Hs, Hr. split.
  - intros j. rewrite !lookup_insert_is_Some. rewrite (Hdom j). reflexivity.
  - intros j ref. rewrite lookup_insert_Some.
    intros [[<- <-] | [_ Hj]]; [reflexivity | eauto].
Qed.

Lemma consistent_counter gb gb' sc ref (m : subConnRef -> subConnRef) :
  consistent gb ->
  scRefs gb !! sc = Some ref ->
  subConn (m ref) = subConn ref ->
  scStates gb' = scStates gb ->
  scRefs gb' = <[sc := m ref]> (scRefs gb) ->
  consistent gb'.
Proof.
  intros [Hdom Hown] Href Hm Hs Hr. unfold consistent. rewrite Hs, Hr. split.
  - intros j. rewrite is_Some_insert_present by eauto. apply Hdom.
  - intros j r. rewrite lookup_insert_Some.
    intros [[<- <-] | [_ Hj]]; [rewrite Hm; eauto | eauto].
Qed.

(** The state map and the reference map hold the same handles after every
    successful step. *)
Lemma consistent_step gb op gb' :
  True -> consistent gb -> step gb op = Ok gb' -> consistent gb'.
Proof.
  intros _ Hc Hstep. destruct op as [a err r|r|key sc|key|sc s|]; simpl in Hstep.
  - injection Hstep as <-.
    destruct (HandleResolvedAddrs_maps gb a err r)
      as (_ & [[B C] | (sc & _ & _ & B & C)]).
    + destruct Hc as [Hdom Hown]. split; rewrite ?B, ?C; auto.
    + eapply consistent_register; eauto.
  - injection Hstep as <-.
    destruct (newSubConn_maps gb r) as (_ & [[B C] | (sc & _ & _ & B & C)]).
    + destruct Hc as [Hdom Hown]. split; rewrite ?B, ?C; auto.
    + eapply consistent_register; eauto.
  - apply bindSubConn_Ok in Hstep as (ref & Href & Hr & Hs & _).
    eapply (consistent_counter gb gb' sc ref affinityIncr); eauto.
  - apply unbindSubConn_Ok in Hstep as [[_ ->] | (sc & ref & _ & Href & Hr & Hs & _)];
      [assumption|].
    eapply (consistent_counter gb gb' sc ref affinityDecr); eauto.
  - injection Hstep as <-.
    destruct (HandleSubConnStateChange_maps gb sc s) as (_ & H).
    destruct (scStates gb !! sc) as [oldS|] eqn:E; [|now rewrite H].
    destruct Hc as [Hdom Hown].
    destruct (decide (s = Shutdown)) as [->|Hne]; destruct H as [B C].
    + split.
      * intros j. rewrite B, C, !lookup_delete_is_Some, (Hdom j). reflexivity.
      * intros j r. rewrite C, lookup_delete_Some. intros [_ Hj]. eauto.
    + split.
      * intros j. rewrite B, C, is_Some_insert_present by eauto. apply Hdom.
      * intros j r. rewrite C. apply Hown.
  - injection Hstep as <-. exact Hc.
Qed.

Lemma consistent_run ops gb gb' :
  consistent gb -> run gb ops = Ok gb' -> consistent gb'.
Proof.
  intros Hc Hrun.
  apply (run_invariant consistent (fun _ => True) consistent_step ops gb gb');
    auto.
  apply Forall_forall. auto.
Qed.

End RunFacts.

(** ** The pool *)

Section PoolInvariants.
Import Evaluator Balancer.

Lemma countState_le_size s gb : (countState s gb <= size (scStates gb))%nat.
Proof. unfold countState. apply map_subseteq_size, map_filter_subseteq. Qed.

(** A connection is registered in [Idle]: creating one never adds to the
    connections in [Connecting]. *)
Lemma newSubConn_countConnecting gb r :
  (countState Connecting (newSubConn gb r) <= countState Connecting gb)%nat.
Proof.
  unfold countState.
  destruct (newSubConn_maps gb r) as (_ & [[-> _] | (sc & _ & _ & -> & _)]);
    [reflexivity|].
  rewrite map_filter_insert_False by (simpl; discriminate).
  rewrite map_filter_delete. apply map_subseteq_size, delete_subseteq.
Qed.

Lemma consistent_empty_pool gb :
  consistent gb -> size (scRefs gb) = 0%nat -> scStates gb = ∅.
Proof.
  intros [Hdom _] Hz. apply map_size_empty_inv in Hz.
  apply map_empty. intros sc.
  destruct (scStates gb !! sc) as [s|] eqn:E; [|reflexivity].
  assert (is_Some (scRefs gb !! sc)) as [ref Href] by (apply Hdom; eauto).
  rewrite Hz, lookup_empty in Href. discriminate.
Qed.

(** Through the handlers a connection is only created for an empty pool. *)
Lemma single_step gb op gb' :
  viaHandlers op ->
  consistent gb /\ (size (scStates gb) <= 1)%nat ->
  step gb op = Ok gb' ->
  consistent gb' /\ (size (scStates gb') <= 1)%nat.
Proof.
  intros Hop [Hc Hsz] Hstep.
  split; [now apply (consistent_step gb op gb')|].
  destruct op as [a err r|r|key sc|key|sc s|]; simpl in Hstep, Hop;
    try contradiction.
  - injection Hstep as <-.
    destruct (HandleResolvedAddrs_maps gb a err r)
      as (_ & [[-> _] | (sc & _ & Hz & -> & _)]); [assumption|].
    rewrite (consistent_empty_pool gb Hc Hz).
    rewrite map_size_insert_None by apply lookup_empty.
    rewrite map_size_empty. lia.
  - apply bindSubConn_Ok in Hstep as (ref & _ & _ & -> & _). assumption.
  - apply unbindSubConn_Ok in Hstep as [[_ ->] | (sc & ref & _ & _ & _ & -> & _)];
      assumption.
  - injection Hstep as <-.
    destruct (HandleSubConnStateChange_maps gb sc s) as (_ & H).
    destruct (scStates gb !! sc) as [oldS|] eqn:E; [|now rewrite H].
    destruct (decide (s = Shutdown)); destruct H as [-> _].
    + rewrite map_size_delete, E. simpl. lia.
    + rewrite map_size_insert, E. assumption.
  - injection Hstep as <-. assumption.
Qed.

(** A key that no operation of the run binds is absent from the table. *)
Lemma unbound_step key gb op gb' :
  ~ bindsKey key op ->
  affinityMap gb !! key = None ->
  step gb op = Ok gb' ->
  affinityMap gb' !! key = None.
Proof.
  intros Hop Hk Hstep. destruct op as [a err r|r|k sc|k|sc s|]; simpl in Hstep, Hop.
  - injection Hstep as <-.
    destruct (HandleResolvedAddrs_maps gb a err r) as (-> & _). assumption.
  - injection Hstep as <-. destruct (newSubConn_maps gb r) as (-> & _). assumption.
  - apply bindSubConn_Ok in Hstep as (ref & _ & _ & _ & ->).
    destruct (affinityMap gb !! k); [assumption|].
    now rewrite lookup_insert_ne.
  - apply unbindSubConn_Ok in Hstep as [[_ ->] | (sc & ref & _ & _ & _ & _ & ->)];
      [assumption|].
    destruct (_ <=? _); [|assumption].
    rewrite lookup_delete_None. auto.
  - injection Hstep as <-.
    destruct (HandleSubConnStateChange_maps gb sc s) as (-> & _). assumption.
  - injection Hstep as <-. assumption.
Qed.

(** A stale binding stays stale as long as the host does not hand out the
    handle again: [bindSubConn] does not rebind the key, [unbindSubConn] of
    the key panics, and notifications for the handle are ignored. *)
Lemma stale_step key sc gb op gb' :
  ~ receives sc op ->
  stale key sc gb ->
  step gb op = Ok gb' ->
  stale key sc gb'.
Proof.
  unfold stale.
  intros Hop (Hk & Hs & Hr) Hstep.
  destruct op as [a err r|r|k sc'|k|sc' s|]; simpl in Hstep, Hop.
  - injection Hstep as <-.
    destruct (HandleResolvedAddrs_maps gb a err r)
      as (-> & [[-> ->] | (sc' & -> & _ & -> & ->)]); [auto|].
    rewrite !lookup_insert_ne by auto. auto.
  - injection Hstep as <-.
    destruct (newSubConn_maps gb r)
      as (-> & [[-> ->] | (sc' & -> & _ & -> & ->)]); [auto|].
    rewrite !lookup_insert_ne by auto. auto.
  - apply bindSubConn_Ok in Hstep as (ref & Href & -> & -> & ->).
    assert (sc' <> sc) by congruence.
    rewrite lookup_insert_ne by assumption.
    repeat split; try assumption.
    destruct (affinityMap gb !! k) eqn:E; [assumption|].
    rewrite lookup_insert_ne; [assumption | congruence].
  - apply unbindSubConn_Ok in Hstep
      as [[_ ->] | (sc' & ref & Hk' & Href & -> & -> & ->)]; [auto|].
    assert (sc' <> sc) by congruence.
    assert (k <> key) by congruence.
    rewrite lookup_insert_ne by assumption.
    repeat split; try assumption.
    destruct (_ <=? _); [|assumption].
    now rewrite lookup_delete_ne.
  - injection Hstep as <-.
    destruct (HandleSubConnStateChange_maps gb sc' s) as (-> & H).
    destruct (scStates gb !! sc') as [oldS|] eqn:E; [|rewrite H; auto].
    assert (sc' <> sc) by congruence.
    destruct (decide (s = Shutdown)); destruct H as [-> ->].
    + rewrite !lookup_delete_ne by assumption. auto.
    + rewrite lookup_insert_ne by assumption. auto.
  - injection Hstep as <-. auto.
Qed.

End PoolInvariants.

(** ** Claims on the affinity counts *)

Section CountClaims.
Import Evaluator Balancer.

(** C5 fails on the code: with two keys bound to one connection, unbinding
    the first key twice and then the second leaves the connection's
    [affinityCnt] at -1.  [streamsDecr] has no guard either: applied to a
    reference without open streams it gives -1. *)
Theorem C5_affinityCnt_goes_negative :
  (exists gb,
     run Build [OpNewSubConn (Some 1%nat);
                OpBind "k1" 1%nat; OpBind "k2" 1%nat;
                OpUnbind "k1"; OpUnbind "k1"; OpUnbind "k2"] = Ok gb /\
     affinityOf gb 1%nat = Some (-1)) /\
  streamsCnt (streamsDecr (mkRef 1%nat 0 0)) = -1.
Proof.
  split; [|reflexivity].
  eexists. split; [vm_compute; reflexivity|]. vm_compute. reflexivity.
Qed.

(** With two keys bound to one connection, unbinding the first key twice
    leaves the second key in the table while the [affinityCnt] of its
    connection is 0: the count is shared by the keys of a connection, and
    [unbindSubConn] uses it to decide the removal of a single key. *)
Lemma shared_count_leaves_key_with_count_zero :
  exists gb,
    run Build [OpNewSubConn (Some 1%nat);
               OpBind "k1" 1%nat; OpBind "k2" 1%nat;
               OpUnbind "k1"; OpUnbind "k1"] = Ok gb /\
    affinityMap gb !! "k2" = Some 1%nat /\
    affinityOf gb 1%nat = Some 0.
Proof.
  eexists. split; [vm_compute; reflexivity|].
  split; vm_compute; reflexivity.
Qed.

(** C8 fails on the code: [bindSubConn] with a handle that has no
    reference, and [unbindSubConn] of a key whose connection was removed by
    [Shutdown], dereference the nil pointer [gb.scRefs[sc]] and panic;
    [HandleSubConnStateChange] for an unknown handle does nothing. *)
Theorem C8_bind_and_unbind_panic_on_missing_reference :
  bindSubConn Build "k" 7%nat = Panic /\
  run Build [OpNewSubConn (Some 1%nat); OpBind "k" 1%nat;
             OpStateChange 1%nat Shutdown; OpBind "k2" 1%nat] = Panic /\
  run Build [OpNewSubConn (Some 1%nat); OpBind "k" 1%nat;
             OpStateChange 1%nat Shutdown; OpUnbind "k"] = Panic /\
  HandleSubConnStateChange Build 7%nat Ready = Build.
Proof.
  split; [reflexivity|]. split; [vm_compute; reflexivity|].
  split; [vm_compute; reflexivity|]. reflexivity.
Qed.

End CountClaims.

(** ** Claims on the pool *)

Section PoolClaims.
Import Evaluator Balancer.

(** C7, as stated, fails: two connections created one after the other,
    each [Ready] before the next step, then both reconnecting, are in
    [Connecting] together.  The guard of [newSubConn] is passed both times. *)
Lemma C7_counterexample_two_connecting :
  ~ (forall ops gb, run Build ops = Ok gb -> atMostOneConnecting gb).
Proof.
  intros H.
  assert (exists gb,
            run Build [OpNewSubConn (Some 1%nat);
                       OpStateChange 1%nat Connecting; OpStateChange 1%nat Ready;
                       OpNewSubConn (Some 2%nat);
                       OpStateChange 2%nat Connecting; OpStateChange 2%nat Ready;
                       OpStateChange 1%nat Idle; OpStateChange 1%nat Connecting;
                       OpStateChange 2%nat Idle; OpStateChange 2%nat Connecting]
              = Ok gb /\
            countState Connecting gb = 2%nat) as (gb & Hrun & Hcount).
  { eexists. split; [vm_compute; reflexivity|]. vm_compute. reflexivity. }
  apply H in Hrun. unfold atMostOneConnecting in Hrun. lia.
Qed.

(** C7 (amended): [newSubConn] creates nothing while a tracked connection
    is [Connecting], and in no case adds to the connections in
    [Connecting], since it registers the new connection as [Idle]; and in
    every state reached without direct calls of [newSubConn], that is
    through [HandleResolvedAddrs], [HandleSubConnStateChange], bind and
    unbind, at most one connection is tracked, hence at most one is
    [Connecting]. *)
Theorem C7_creation_guard_and_handler_runs
    (gb : gcpBalancer) (r : option SubConn) (ops : list Op) (gb' : gcpBalancer) :
  ((exists sc, scStates gb !! sc = Some Connecting) -> newSubConn gb r = gb) /\
  (countState Connecting (newSubConn gb r) <= countState Connecting gb)%nat /\
  (Forall viaHandlers ops -> run Build ops = Ok gb' ->
     (size (scStates gb') <= 1)%nat /\ atMostOneConnecting gb').
Proof.
  split; [|split].
  - intros H. apply anyConnecting_true in H. unfold newSubConn. now rewrite H.
  - apply newSubConn_countConnecting.
  - intros Hops Hrun.
    assert (consistent gb' /\ (size (scStates gb') <= 1)%nat) as [_ Hsz].
    { apply (run_invariant _ viaHandlers single_step ops Build gb' Hops);
        [|exact Hrun].
      split; [apply consistent_Build|]. simpl. rewrite map_size_empty. lia. }
    split; [exact Hsz|]. unfold atMostOneConnecting.
    pose proof (countState_le_size Connecting gb'). lia.
Qed.

Lemma C7_creation_guard_witness :
  newSubConn (HandleSubConnStateChange (newSubConn Build (Some 1%nat)) 1%nat Connecting)
             (Some 2%nat)
    = HandleSubConnStateChange (newSubConn Build (Some 1%nat)) 1%nat Connecting /\
  atMostOneConnecting
    (HandleSubConnStateChange (HandleResolvedAddrs Build ["10.0.0.1:443"] false (Some 1%nat))
                              1%nat Connecting).
Proof.
  destruct (C7_creation_guard_and_handler_runs
              (HandleSubConnStateChange (newSubConn Build (Some 1%nat)) 1%nat Connecting)
              (Some 2%nat)
              [OpResolvedAddrs ["10.0.0.1:443"] false (Some 1%nat);
               OpStateChange 1%nat Connecting]
              (HandleSubConnStateChange
                 (HandleResolvedAddrs Build ["10.0.0.1:443"] false (Some 1%nat))
                 1%nat Connecting))
    as (Hguard & _ & Hruns).
  split.
  - apply Hguard. exists 1%nat. vm_compute. reflexivity.
  - apply Hruns; [|reflexivity].
    repeat constructor.
Defined.

(** C9: [getReadySubConnRef key] returns (nil, false) when the key is not
    in the affinity map, in particular when no [bindSubConn] of the key has
    been run; (nil, true) when the key is bound and the state of its
    connection is not [Ready]; and (the reference of the bound connection,
    true) when the key is bound and its connection is [Ready], a reference
    that exists in every state reached from [Build]. *)
Theorem C9_getReadySubConnRef_cases (gb : gcpBalancer) (key : string) :
  (affinityMap gb !! key = None -> getReadySubConnRef gb key = (None, false)) /\
  (forall ops, Forall (fun op => ~ bindsKey key op) ops ->
     run Build ops = Ok gb -> getReadySubConnRef gb key = (None, false)) /\
  (forall sc, affinityMap gb !! key = Some sc -> stateOf gb sc <> Ready ->
     getReadySubConnRef gb key = (None, true)) /\
  (forall sc ref, affinityMap gb !! key = Some sc -> stateOf gb sc = Ready ->
     scRefs gb !! sc = Some ref ->
     getReadySubConnRef gb key = (Some ref, true)) /\
  (forall ops sc, run Build ops = Ok gb ->
     affinityMap gb !! key = Some sc -> stateOf gb sc = Ready ->
     exists ref, subConn ref = sc /\ scRefs gb !! sc = Some ref /\
                 getReadySubConnRef gb key = (Some ref, true)).
Proof.
  assert (Hnone : affinityMap gb !! key = None ->
                  getReadySubConnRef gb key = (None, false)).
  { intros H. unfold getReadySubConnRef. now rewrite H. }
  assert (Hready : forall sc ref, affinityMap gb !! key = Some sc ->
            stateOf gb sc = Ready -> scRefs gb !! sc = Some ref ->
            getReadySubConnRef gb key = (Some ref, true)).
  { intros sc ref Hk Hs Hr. unfold getReadySubConnRef. rewrite Hk, Hs, Hr.
    reflexivity. }
  split; [exact Hnone|]. split; [|split; [|split; [exact Hready|]]].
  - intros ops Hops Hrun. apply Hnone.
    apply (run_invariant (fun g => affinityMap g !! key = None)
             (fun op => ~ bindsKey key op) (unbound_step key) ops Build gb Hops);
      [apply lookup_empty | exact Hrun].
  - intros sc Hk Hs. unfold getReadySubConnRef. rewrite Hk.
    now rewrite bool_decide_eq_true_2.
  - intros ops sc Hrun Hk Hs.
    destruct (consistent_run ops Build gb consistent_Build Hrun) as [Hdom Hown].
    assert (is_Some (scRefs gb !! sc)) as [ref Href].
    { apply Hdom. unfold stateOf in Hs.
      destruct (scStates gb !! sc); [eauto | discriminate]. }
    exists ref. split; [eauto|]. split; [exact Href|]. eauto.
Qed.

End PoolClaims.

Section LookupClaims.
Import Evaluator Balancer.

Lemma C9_getReadySubConnRef_witness :
  getReadySubConnRef Build "k" = (None, false) /\
  getReadySubConnRef (newSubConn Build (Some 1%nat)) "k" = (None, false) /\
  getReadySubConnRef
    (HandleSubConnStateChange
       (set_affinityMap {[ "k" := 1%nat ]} (newSubConn Build (Some 1%nat)))
       1%nat Connecting) "k" = (None, true) /\
  getReadySubConnRef
    (HandleSubConnStateChange
       (set_affinityMap {[ "k" := 1%nat ]} (newSubConn Build (Some 1%nat)))
       1%nat Ready) "k" = (Some (mkRef 1%nat 0 0), true) /\
  (exists ref,
     subConn ref = 1%nat /\
     getReadySubConnRef
       (match run Build [OpNewSubConn (Some 1%nat); OpBind "k" 1%nat;
                         OpStateChange 1%nat Connecting; OpStateChange 1%nat Ready]
        with Ok g => g | Panic => Build end) "k" = (Some ref, true)).
Proof.
  split; [|split; [|split; [|split]]].
  - apply (proj1 (C9_getReadySubConnRef_cases Build "k")). reflexivity.
  - apply (proj1 (proj2 (C9_getReadySubConnRef_cases _ "k"))
             [OpNewSubConn (Some 1%nat)]).
    + repeat constructor. simpl. tauto.
    + reflexivity.
  - apply (proj1 (proj2 (proj2 (C9_getReadySubConnRef_cases _ "k"))) 1%nat).
    + reflexivity.
    + vm_compute. discriminate.
  - apply (proj1 (proj2 (proj2 (proj2 (C9_getReadySubConnRef_cases _ "k")))) 1%nat).
    + reflexivity.
    + reflexivity.
    + reflexivity.
  - destruct (proj2 (proj2 (proj2 (proj2 (C9_getReadySubConnRef_cases
        (match run Build [OpNewSubConn (Some 1%nat); OpBind "k" 1%nat;
                          OpStateChange 1%nat Connecting; OpStateChange 1%nat Ready]
         with Ok g => g | Panic => Build end) "k"))))
        [OpNewSubConn (Some 1%nat); OpBind "k" 1%nat;
         OpStateChange 1%nat Connecting; OpStateChange 1%nat Ready]
        1%nat eq_refl eq_refl eq_refl) as (ref & Hsc & _ & Hget).
    exists ref. split; [exact Hsc | exact Hget].
Defined.

(** C10: when a tracked connection to which a key is bound goes to
    [Shutdown], it leaves the state map and the reference map while the
    affinity mapping stays; from then on, after any further operations that
    complete (the host never handing out the removed handle again),
    [getReadySubConnRef key] returns (nil, true): the state read for the
    removed handle is the zero value [Idle], which is not [Ready]. *)
Theorem C10_stale_binding_is_bound_but_not_ready
    (gb : gcpBalancer) (key : string) (sc : SubConn) (ops : list Op)
    (gb' : gcpBalancer) :
  affinityMap gb !! key = Some sc ->
  is_Some (scStates gb !! sc) ->
  Forall (fun op => ~ receives sc op) ops ->
  run (HandleSubConnStateChange gb sc Shutdown) ops = Ok gb' ->
  stale key sc (HandleSubConnStateChange gb sc Shutdown) /\
  stale key sc gb' /\
  stateOf gb' sc = Idle /\
  getReadySubConnRef gb' key = (None, true).
Proof.
  intros Hk [oldS Hs] Hops Hrun.
  assert (H1 : stale key sc (HandleSubConnStateChange gb sc Shutdown)).
  { destruct (HandleSubConnStateChange_maps gb sc Shutdown) as (A & H).
    rewrite Hs in H. simpl in H. destruct H as [B C].
    unfold stale. rewrite A, B, C, !lookup_delete_eq. auto. }
  assert (H2 : stale key sc gb').
  { apply (run_invariant (stale key sc) (fun op => ~ receives sc op)
             (stale_step key sc) ops _ gb' Hops H1 Hrun). }
  split; [exact H1|]. split; [exact H2|].
  destruct H2 as (Hk' & Hs' & _).
  assert (Hidle : stateOf gb' sc = Idle) by (unfold stateOf; now rewrite Hs').
  split; [exact Hidle|].
  unfold getReadySubConnRef. rewrite Hk', Hidle. reflexivity.
Qed.

Lemma C10_stale_binding_witness :
  getReadySubConnRef
    (HandleSubConnStateChange
       (newSubConn
          (HandleSubConnStateChange
             (set_affinityMap {[ "k" := 1%nat ]} (newSubConn Build (Some 1%nat)))
             1%nat Shutdown)
          (Some 2%nat))
       2%nat Ready) "k" = (None, true).
Proof.
  apply (C10_stale_binding_is_bound_but_not_ready
           (set_affinityMap {[ "k" := 1%nat ]} (newSubConn Build (Some 1%nat)))
           "k" 1%nat
           [OpNewSubConn (Some 2%nat); OpStateChange 2%nat Ready]).
  - reflexivity.
  - exists Idle. reflexivity.
  - repeat constructor; simpl; lia.
  - reflexivity.
Defined.

End LookupClaims.

(** ** The aggregated state of the balancer *)

Section AggregateFacts.
Import Evaluator Balancer.

Implicit Types m : gmap nat State.

Local Abbreviation cnt t m := (Z.of_nat (size (filter (fun kv : nat * State => snd kv = t) m))).

Lemma cnt_delete t m sc old :
  m !! sc = Some old -> cnt t (delete sc m) = cnt t m - ind old t.
Proof.
  intros H. rewrite map_filter_delete, map_size_delete.
  destruct (ind_cases old t) as [[-> ->] | [Hne ->]].
  - rewrite (map_lookup_filter_Some_2 (fun kv : nat * State => snd kv = t) m sc t H eq_refl).
    assert (size (filter (fun kv : nat * State => snd kv = t) m) <> 0%nat).
    { apply (map_size_ne_0_lookup_2 _ sc).
      rewrite (map_lookup_filter_Some_2 (fun kv : nat * State => snd kv = t) m sc t H eq_refl). eauto. }
    simpl. lia.
  - rewrite (map_lookup_filter_None_2 (fun kv : nat * State => snd kv = t) m sc); [simpl; lia|].
    right. intros x Hx. rewrite H in Hx. injection Hx as <-. exact Hne.
Qed.

Lemma cnt_insert t m sc old s :
  m !! sc = Some old -> cnt t (<[sc := s]> m) = cnt t m - ind old t + ind s t.
Proof.
  intros H. rewrite map_filter_insert.
  destruct (ind_cases s t) as [[-> ->] | [Hne ->]].
  - rewrite decide_True by reflexivity. rewrite map_size_insert.
    destruct (ind_cases old t) as [[-> ->] | [Hne ->]].
    + rewrite (map_lookup_filter_Some_2 (fun kv : nat * State => snd kv = t) m sc t H eq_refl). simpl. lia.
    + rewrite (map_lookup_filter_None_2 (fun kv : nat * State => snd kv = t) m sc); [simpl; lia|].
      right. intros x Hx. rewrite H in Hx. injection Hx as <-. exact Hne.
  - rewrite decide_False by exact Hne.
    rewrite (cnt_delete t m sc old H). lia.
Qed.

Lemma cnt_register t m sc :
  m !! sc = None -> t <> Idle -> cnt t (<[sc := Idle]> m) = cnt t m.
Proof.
  intros H Ht. rewrite map_filter_insert_not'; [reflexivity | simpl; congruence |].
  intros y Hy. rewrite H in Hy. discriminate.
Qed.

Lemma cnt_pos_iff t m : 0 < cnt t m <-> exists sc, m !! sc = Some t.
Proof.
  split.
  - intros Hpos.
    destruct (map_size_ne_0_lookup_1
                (filter (fun kv : nat * State => snd kv = t) m))
      as (sc & x & Hx); [lia|].
    apply map_lookup_filter_Some in Hx as [Hx Ht]. simpl in Ht. subst x. eauto.
  - intros (sc & Hsc).
    pose proof (map_size_ne_0_lookup_2
                  (filter (fun kv : nat * State => snd kv = t) m) sc) as Hnz.
    rewrite (map_lookup_filter_Some_2 (fun kv : nat * State => snd kv = t) m sc t Hsc eq_refl) in Hnz.
    assert (size (filter (fun kv : nat * State => snd kv = t) m) <> 0%nat)
      by eauto.
    lia.
Qed.

Lemma counter_not_Idle cse s c : counter cse s = Some c -> s <> Idle.
Proof. destruct s; simpl; congruence. Qed.

Lemma HandleSubConnStateChange_eval gb sc s oldS :
  scStates gb !! sc = Some oldS ->
  csEvltr (HandleSubConnStateChange gb sc s) = fst (RecordTransition (csEvltr gb) oldS s) /\
  state (HandleSubConnStateChange gb sc s) = snd (RecordTransition (csEvltr gb) oldS s).
Proof.
  intros E. unfold HandleSubConnStateChange. rewrite E. cbv zeta.
  match goal with
  | |- context [RecordTransition (csEvltr ?g) oldS s] =>
      set (g1 := g);
      assert (Hc : csEvltr g1 = csEvltr gb) by (subst g1; destruct s; reflexivity)
  end.
  rewrite Hc.
  destruct (RecordTransition (csEvltr gb) oldS s) as [cse st].
  match goal with
  | |- context [if ?b then call _ _ else _] => destruct b
  end; [|simpl; auto].
  destruct (regeneratePicker_maps (set_eval cse st g1)) as (_ & _ & _ & D & F).
  cbn [call csEvltr state fst snd]. rewrite D, F. simpl. auto.
Qed.

Lemma bindSubConn_eval gb key sc gb' :
  bindSubConn gb key sc = Ok gb' -> csEvltr gb' = csEvltr gb /\ state gb' = state gb.
Proof.
  unfold bindSubConn, onRef.
  destruct (affinityMap gb !! key); simpl;
    destruct (scRefs gb !! sc); intros H; try discriminate;
    injection H as <-; auto.
Qed.

Lemma unbindSubConn_eval gb key gb' :
  unbindSubConn gb key = Ok gb' -> csEvltr gb' = csEvltr gb /\ state gb' = state gb.
Proof.
  intros H.
  destruct (affinityMap gb !! key) as [sc|] eqn:Ek.
  - destruct (scRefs gb !! sc) as [ref|] eqn:Er.
    + rewrite (unbindSubConn_Some gb key sc ref Ek Er) in H. injection H as <-.
      cbv zeta. destruct (_ <=? _); auto.
    + now rewrite (unbindSubConn_stale gb key sc Ek Er) in H.
  - rewrite (unbindSubConn_unbound gb key Ek) in H. injection H as <-. auto.
Qed.

Lemma newSubConn_eval gb r :
  csEvltr (newSubConn gb r) = csEvltr gb /\ state (newSubConn gb r) = state gb.
Proof.
  unfold newSubConn. destruct (anyConnecting gb); [auto|].
  destruct r; simpl; auto.
Qed.

Lemma HandleResolvedAddrs_eval gb a err r :
  csEvltr (HandleResolvedAddrs gb a err r) = csEvltr gb /\
  state (HandleResolvedAddrs gb a err r) = state gb.
Proof.
  unfold HandleResolvedAddrs. destruct err; [auto|]. cbv zeta.
  destruct (_ =? _)%nat.
  - apply (newSubConn_eval (set_addrs a gb) r).
  - pose proof (fold_calls_maps
        (fun _ kv => [CallConnect (subConn (snd kv));
                      CallUpdateAddresses (subConn (snd kv)) a])
        (map_to_list (scRefs gb)) (set_addrs a gb)) as (_ & _ & _ & D & E).
    simpl in D, E. auto.
Qed.

Lemma counted_Build : counted Build.
Proof.
  split; [apply zero_wf|].
  intros s c H. unfold countState. simpl scStates.
  rewrite map_filter_empty, map_size_empty.
  destruct s; simpl in H; try discriminate; injection H as <-; reflexivity.
Qed.

Lemma counted_same gb gb' :
  counted gb ->
  csEvltr gb' = csEvltr gb -> scStates gb' = scStates gb ->
  counted gb'.
Proof.
  unfold counted, countState. intros [Hwf Hc] -> ->. auto.
Qed.

Lemma counted_register gb gb' sc :
  counted gb ->
  scStates gb !! sc = None ->
  csEvltr gb' = csEvltr gb -> scStates gb' = <[sc := Idle]> (scStates gb) ->
  counted gb'.
Proof.
  unfold counted, countState. intros [Hwf Hc] Hfresh -> ->.
  split; [exact Hwf|]. intros s c Hs.
  rewrite (cnt_register s _ sc Hfresh (counter_not_Idle _ _ _ Hs)). auto.
Qed.

(** Every successful step keeps the counters of the evaluator equal to the
    numbers of tracked connections, as long as received handles are fresh. *)
Lemma counted_step gb op gb' :
  fresh gb op -> counted gb -> step gb op = Ok gb' -> counted gb'.
Proof.
  unfold fresh. intros Hfresh Hc Hstep.
  destruct op as [a err r|r|key sc|key|sc s|]; simpl in Hstep, Hfresh.
  - injection Hstep as <-.
    destruct (HandleResolvedAddrs_eval gb a err r) as [He _].
    destruct (HandleResolvedAddrs_maps gb a err r)
      as (_ & [[B _] | (sc & -> & _ & B & _)]).
    + now apply (counted_same gb).
    + apply (counted_register gb _ sc); auto.
  - injection Hstep as <-.
    destruct (newSubConn_eval gb r) as [He _].
    destruct (newSubConn_maps gb r) as (_ & [[B _] | (sc & -> & _ & B & _)]).
    + now apply (counted_same gb).
    + apply (counted_register gb _ sc); auto.
  - destruct (bindSubConn_eval _ _ _ _ Hstep) as [He _].
    apply bindSubConn_Ok in Hstep as (ref & _ & _ & B & _).
    now apply (counted_same gb).
  - destruct (unbindSubConn_eval _ _ _ Hstep) as [He _].
    apply unbindSubConn_Ok in Hstep as [[_ ->] | (sc & ref & _ & _ & _ & B & _)];
      [assumption|].
    now apply (counted_same gb).
  - injection Hstep as <-.
    destruct (HandleSubConnStateChange_maps gb sc s) as (_ & H).
    destruct (scStates gb !! sc) as [oldS|] eqn:E; [|now rewrite H].
    destruct (HandleSubConnStateChange_eval gb sc s oldS E) as [He _].
    destruct Hc as [Hwf Hc]. unfold counted, countState. rewrite He.
    split; [now apply RecordTransition_wf|].
    intros t c Ht.
    destruct (counter_is_Some (csEvltr gb) t) as [c0 Hc0].
    { destruct t; simpl in Ht; try discriminate; auto. }
    rewrite (RecordTransition_counter _ oldS s t c0 Hwf Hc0) in Ht.
    injection Ht as <-. rewrite (Hc t c0 Hc0). unfold countState.
    replace (uint64 (cnt t (scStates gb)) - ind oldS t + ind s t)
      with (uint64 (cnt t (scStates gb)) + (- ind oldS t + ind s t)) by ring.
    rewrite uint64_add_l. apply f_equal.
    destruct (decide (s = Shutdown)) as [->|Hne]; destruct H as [-> _].
    + rewrite (cnt_delete t _ sc oldS E).
      destruct (ind_cases Shutdown t) as [[<- _] | [_ ->]]; [discriminate|]. ring.
    + rewrite (cnt_insert t _ sc oldS s E). ring.
  - injection Hstep as <-. exact Hc.
Qed.

Lemma counted_run ops gb gb' :
  freshRun gb ops -> counted gb -> run gb ops = Ok gb' -> counted gb'.
Proof. apply (runWhere_invariant counted fresh counted_step). Qed.

(** With fewer than 2^64 tracked connections, a balancer whose evaluator
    counts its connections and whose state is the evaluation of the
    counters satisfies the aggregation rule. *)
Lemma counted_aggregated gb :
  counted gb ->
  Z.of_nat (size (scStates gb)) < 2 ^ 64 ->
  state gb = evaluate (csEvltr gb) ->
  aggregated gb.
Proof.
  intros [Hwf Hc] Hsz Hst. unfold aggregated. cbv zeta.
  rewrite Hst. unfold evaluate.
  rewrite (Hc Ready _ eq_refl), (Hc Connecting _ eq_refl).
  pose proof (countState_le_size Ready gb) as HR.
  pose proof (countState_le_size Connecting gb) as HC.
  rewrite !uint64_pos_iff by lia.
  rewrite <- !cnt_pos_iff. fold (countState Ready gb) (countState Connecting gb).
  destruct (Z.ltb_spec 0 (Z.of_nat (countState Ready gb)));
    destruct (Z.ltb_spec 0 (Z.of_nat (countState Connecting gb)));
    repeat split; intros; try congruence; try lia.
Qed.

(** In the balancer the rule holds on the tracked connections: after a
    run from [Build] in which the host hands out fresh handles, each state
    change of a tracked connection sets [gb.state] to [Ready] iff some
    tracked connection is [Ready], otherwise to [Connecting] iff some is
    [Connecting], otherwise to [TransientFailure]. *)
Theorem balancer_state_aggregates ops gb sc s :
  freshRun Build ops ->
  run Build ops = Ok gb ->
  is_Some (scStates gb !! sc) ->
  Z.of_nat (size (scStates gb)) < 2 ^ 64 ->
  aggregated (HandleSubConnStateChange gb sc s).
Proof.
  intros Hf Hrun [oldS E] Hsz.
  pose proof (counted_run ops Build gb Hf counted_Build Hrun) as Hc.
  destruct (HandleSubConnStateChange_eval gb sc s oldS E) as [He Hs].
  apply counted_aggregated.
  - apply (counted_step gb (OpStateChange sc s)); simpl; auto.
    intros ? [].
  - destruct (HandleSubConnStateChange_maps gb sc s) as (_ & H).
    rewrite E in H.
    destruct (decide (s = Shutdown)); destruct H as [-> _].
    + rewrite map_size_delete, E. simpl. lia.
    + rewrite map_size_insert, E. simpl. lia.
  - rewrite He, Hs. reflexivity.
Qed.

End AggregateFacts.

(** ** Claims on the aggregation *)

Section AggregationClaims.
Import Evaluator Balancer.

(** C1, as stated, fails: fed the single pair (Ready, Idle), a fresh
    evaluator decrements [numReady] from 0 to 2^64-1 and returns [Ready],
    while the only connection mentioned has moved to [Idle]. *)
Lemma C1_counterexample_ready_without_ready_connection :
  ~ aggregates [] (Ready, Idle).
Proof.
  intros (H & _). simpl in H.
  assert (Hr : lastReturn [] (Ready, Idle) = Ready) by reflexivity.
  apply H in Hr. vm_compute in Hr. discriminate.
Qed.

Lemma aggregates_of_consistent_transitions
    (ps : list (State * State)) (p : State * State) :
  0 <= tracked Ready (ps ++ [p]) < 2 ^ 64 ->
  0 <= tracked Connecting (ps ++ [p]) < 2 ^ 64 ->
  aggregates ps p.
Proof.
  intros HR HC. unfold aggregates. cbv zeta.
  rewrite lastReturn_evaluate.
  set (all := ps ++ [p]) in *.
  pose proof (feed_counter all zero Ready 0 zero_wf eq_refl) as ER.
  pose proof (feed_counter all zero Connecting 0 zero_wf eq_refl) as EC.
  simpl in ER, EC. injection ER as ER. injection EC as EC.
  unfold evaluate. rewrite ER, EC.
  rewrite !Z.add_0_l, !uint64_pos_iff by assumption.
  destruct (Z.ltb_spec 0 (tracked Ready all)) as [r|r];
    destruct (Z.ltb_spec 0 (tracked Connecting all)) as [c|c];
    repeat split; intros; try congruence; try lia.
Qed.

(** C1 (amended): for every sequence of (old, new) pairs that leaves, in
    [Ready] and in [Connecting], a number of connections between 0 and
    2^64-1 (no more departures from a state than arrivals), the value
    returned by the last call is [Ready] iff at least one connection is
    [Ready]; otherwise [Connecting] iff at least one is [Connecting];
    otherwise [TransientFailure].  The balancer feeds such sequences: after
    a run from [Build] in which the host hands out fresh handles, and with
    fewer than 2^64 tracked connections, a state change of a tracked
    connection sets [gb.state] by this rule, read on the tracked
    connections. *)
Theorem C1_aggregate_of_consistent_transitions
    (ps : list (State * State)) (p : State * State)
    (ops : list Op) (gb : gcpBalancer) (sc : SubConn) (s : State) :
  (0 <= tracked Ready (ps ++ [p]) < 2 ^ 64 ->
   0 <= tracked Connecting (ps ++ [p]) < 2 ^ 64 ->
   aggregates ps p) /\
  (freshRun Build ops ->
   run Build ops = Ok gb ->
   is_Some (scStates gb !! sc) ->
   Z.of_nat (size (scStates gb)) < 2 ^ 64 ->
   aggregated (HandleSubConnStateChange gb sc s)).
Proof.
  split.
  - apply aggregates_of_consistent_transitions.
  - apply balancer_state_aggregates.
Qed.

Lemma C1_aggregate_witness :
  aggregates [(Idle, Connecting); (Idle, Connecting)] (Connecting, Ready) /\
  aggregated
    (HandleSubConnStateChange
       (HandleSubConnStateChange
          (newSubConn (newSubConn Build (Some 1%nat)) (Some 2%nat))
          1%nat Connecting)
       2%nat TransientFailure).
Proof.
  destruct (C1_aggregate_of_consistent_transitions
              [(Idle, Connecting); (Idle, Connecting)] (Connecting, Ready)
              [OpNewSubConn (Some 1%nat); OpNewSubConn (Some 2%nat);
               OpStateChange 1%nat Connecting]
              (HandleSubConnStateChange
                 (newSubConn (newSubConn Build (Some 1%nat)) (Some 2%nat))
                 1%nat Connecting)
              2%nat TransientFailure) as [Hpairs Hbalancer].
  split.
  - apply Hpairs; vm_compute; split; congruence.
  - apply Hbalancer.
    + unfold freshRun, fresh. cbn [runWhere step receives].
      split; [intros h <-; reflexivity|].
      split; [intros h <-; reflexivity|].
      split; [intros h []|]. exact I.
    + reflexivity.
    + exists Idle. reflexivity.
    + vm_compute. reflexivity.
Defined.

End AggregationClaims.

(** ** Keys and counts *)

Section KeyFacts.
Import Evaluator Balancer.

Lemma affinityInv_Build : affinityInv Build.
Proof.
  split; [apply consistent_Build|]. simpl.
  split; [intros sc ref; rewrite lookup_empty; discriminate|].
  split; [intros key sc; rewrite lookup_empty; discriminate|].
  intros k1 k2 sc. rewrite lookup_empty. discriminate.
Qed.

Lemma affinityInv_frame gb gb' :
  affinityInv gb -> consistent gb' ->
  affinityMap gb' = affinityMap gb -> scRefs gb' = scRefs gb ->
  affinityInv gb'.
Proof.
  intros (_ & Hrange & Hpos & Hinj) Hc Ha Hr.
  unfold affinityInv. rewrite Ha, Hr. auto.
Qed.

Lemma affinityInv_register gb gb' sc :
  affinityInv gb -> consistent gb' ->
  scStates gb !! sc = None ->
  affinityMap gb' = affinityMap gb ->
  scRefs gb' = <[sc := mkRef sc 0 0]> (scRefs gb) ->
  affinityInv gb'.
Proof.
  intros ([Hdom _] & Hrange & Hpos & Hinj) Hc Hfresh Ha Hr.
  assert (Hnone : scRefs gb !! sc = None).
  { destruct (scRefs gb !! sc) eqn:E; [|reflexivity].
    assert (is_Some (scStates gb !! sc)) as [x Hx] by (apply Hdom; eauto).
    congruence. }
  unfold affinityInv. rewrite Ha, Hr.
  split; [exact Hc|]. split; [|split; [|exact Hinj]].
  - intros j ref. rewrite lookup_insert_Some.
    intros [[_ <-] | [_ Hj]]; [simpl; lia | eauto].
  - intros key j Hk. destruct (Hpos key j Hk) as (ref & Hj & Hp).
    exists ref. split; [|exact Hp].
    rewrite lookup_insert_ne; [exact Hj | congruence].
Qed.

(** Exclusive uses keep the count of a connection equal to the
    outstanding binds of its one key. *)
Lemma affinityInv_step gb op gb' :
  exclusive gb op -> affinityInv gb -> step gb op = Ok gb' -> affinityInv gb'.
Proof.
  intros [Hfresh Hex] Hinv Hstep.
  assert (Hc' : consistent gb').
  { destruct Hinv as [Hc _]. now apply (consistent_step gb op gb'). }
  unfold fresh in Hfresh.
  destruct op as [a err r|r|key sc|key|sc s|]; simpl in Hstep, Hfresh, Hex.
  - injection Hstep as <-.
    destruct (HandleResolvedAddrs_maps gb a err r)
      as (A & [[_ C] | (sc & -> & _ & _ & C)]).
    + now apply (affinityInv_frame gb).
    + apply (affinityInv_register gb _ sc); auto.
  - injection Hstep as <-.
    destruct (newSubConn_maps gb r) as (A & [[_ C] | (sc & -> & _ & _ & C)]).
    + now apply (affinityInv_frame gb).
    + apply (affinityInv_register gb _ sc); auto.
  - destruct Hex as [Hexcl Hmax].
    apply bindSubConn_Ok in Hstep as (ref & Href & Hr & _ & Ha).
    destruct Hinv as (_ & Hrange & Hpos & Hinj).
    pose proof (Hrange sc ref Href) as Hcnt. pose proof (Hmax ref Href) as Hlt.
    assert (Hnew : affinityCnt (affinityIncr ref) = affinityCnt ref + 1)
      by (simpl; apply int32_small; lia).
    unfold affinityInv. rewrite Hr, Ha.
    split; [exact Hc'|]. split; [|split].
    + intros j r0. rewrite lookup_insert_Some.
      intros [[_ <-] | [_ Hj]]; [rewrite Hnew; lia | eauto].
    + assert (Hold : forall k j, affinityMap gb !! k = Some j ->
                exists r0, <[sc := affinityIncr ref]> (scRefs gb) !! j = Some r0 /\
                           0 < affinityCnt r0).
      { intros k j Hk. destruct (decide (sc = j)) as [<-|Hne].
        - exists (affinityIncr ref). rewrite lookup_insert_eq, Hnew.
          split; [reflexivity | lia].
        - rewrite lookup_insert_ne by exact Hne. eauto. }
      intros k j. destruct (affinityMap gb !! key) eqn:E; [apply Hold|].
      rewrite lookup_insert_Some. intros [[_ <-] | [_ Hk]]; [|eauto].
      exists (affinityIncr ref). rewrite lookup_insert_eq, Hnew.
      split; [reflexivity | lia].
    + intros k1 k2 j. destruct (affinityMap gb !! key) eqn:E; [apply Hinj|].
      rewrite !lookup_insert_Some.
      intros [[<- <-] | [Hn1 H1]] [[<- Hj] | [Hn2 H2]]; try reflexivity.
      * exfalso. exact (Hexcl eq_refl k2 H2).
      * subst j. exfalso. exact (Hexcl eq_refl k1 H1).
      * eauto.
  - apply unbindSubConn_Ok in Hstep
      as [[_ ->] | (sc & ref & Hk & Href & Hr & _ & Ha)]; [exact Hinv|].
    destruct Hinv as (_ & Hrange & Hpos & Hinj).
    pose proof (Hrange sc ref Href) as Hcnt.
    destruct (Hpos key sc Hk) as (ref0 & Href0 & Hp).
    assert (ref0 = ref) by congruence. subst ref0.
    assert (Hnew : affinityCnt (affinityDecr ref) = affinityCnt ref - 1)
      by (simpl; rewrite int32_small; lia).
    unfold affinityInv. rewrite Hr, Ha, Hnew.
    split; [exact Hc'|]. split; [|split].
    + intros j r0. rewrite lookup_insert_Some.
      intros [[_ <-] | [_ Hj]]; [rewrite Hnew; lia | eauto].
    + intros k j. destruct (Z.leb_spec (affinityCnt ref - 1) 0) as [Hle|Hgt].
      * rewrite lookup_delete_Some. intros [Hne Hkj].
        assert (sc <> j) by (intros <-; apply Hne; eauto).
        rewrite lookup_insert_ne by assumption. eauto.
      * intros Hkj. destruct (decide (sc = j)) as [<-|Hne].
        -- exists (affinityDecr ref). rewrite lookup_insert_eq, Hnew.
           split; [reflexivity | lia].
        -- rewrite lookup_insert_ne by exact Hne. eauto.
    + intros k1 k2 j.
      destruct (affinityCnt ref - 1 <=? 0); [|apply Hinj].
      rewrite !lookup_delete_Some. intros [_ H1] [_ H2]. eauto.
  - injection Hstep as <-.
    destruct (HandleSubConnStateChange_maps gb sc s) as (A & H).
    destruct (scStates gb !! sc) as [oldS|] eqn:E; [|now rewrite H].
    destruct (decide (s = Shutdown)) as [->|Hne]; destruct H as [_ C].
    + destruct Hinv as (_ & Hrange & Hpos & Hinj).
      unfold affinityInv. rewrite A, C.
      split; [exact Hc'|]. split; [|split; [|exact Hinj]].
      * intros j r0. rewrite lookup_delete_Some. intros [_ Hj]. eauto.
      * intros k j Hk. destruct (Hpos k j Hk) as (r0 & Hj & Hp).
        exists r0. split; [|exact Hp].
        rewrite lookup_delete_ne; [exact Hj|].
        intros <-. exact (Hex k Hk).
    + now apply (affinityInv_frame gb).
  - injection Hstep as <-. exact Hinv.
Qed.

Lemma affinityInv_presentIffPositive gb : affinityInv gb -> presentIffPositive gb.
Proof.
  intros (_ & _ & Hpos & _) key. split.
  - intros [sc Hk]. destruct (Hpos key sc Hk) as (ref & Hr & Hp). eauto.
  - intros (sc & _ & Hk & _). eauto.
Qed.

Lemma runWhere_cons (adm : gcpBalancer -> Op -> Prop) gb op gb' rest :
  adm gb op -> step gb op = Ok gb' -> runWhere adm gb' rest ->
  runWhere adm gb (op :: rest).
Proof. intros Ha Hs Hr. simpl. rewrite Hs. auto. Qed.

End KeyFacts.

Section KeyClaims.
Import Evaluator Balancer.

(** C6, as stated, fails: after [Shutdown] of a connection, a key bound to
    it is still in the affinity table while the connection has no reference,
    hence no positive count, any more. *)
Lemma C6_counterexample_key_survives_shutdown :
  ~ (forall ops gb, run Build ops = Ok gb -> presentIffPositive gb).
Proof.
  intros H.
  assert (exists gb,
            run Build [OpNewSubConn (Some 1%nat); OpBind "k" 1%nat;
                       OpStateChange 1%nat Shutdown] = Ok gb /\
            affinityMap gb !! "k" = Some 1%nat /\
            scRefs gb !! 1%nat = None) as (gb & Hrun & Hk & Hr).
  { eexists. split; [vm_compute; reflexivity|]. split; vm_compute; reflexivity. }
  destruct (proj1 (H _ gb Hrun "k")) as (sc & ref & Hk' & Hr' & _); [eauto|].
  congruence.
Qed.

(** A count is only made positive by a bind, which maps the key unless the
    key is mapped already; when the key is then mapped to the same
    connection, every positive count has a key. *)
Lemma positiveHasKey_step gb op gb' :
  sameTarget gb op -> positiveHasKey gb -> step gb op = Ok gb' ->
  positiveHasKey gb'.
Proof.
  unfold positiveHasKey.
  intros Hsame Hinv Hstep j r.
  destruct op as [a err r0|r0|key sc|key|sc s|]; simpl in Hstep, Hsame.
  - injection Hstep as <-.
    destruct (HandleResolvedAddrs_maps gb a err r0)
      as (-> & [[_ ->] | (sc & _ & _ & _ & ->)]); [apply Hinv|].
    rewrite lookup_insert_Some. intros [[_ <-] | [_ Hj]]; [simpl; lia|].
    now apply (Hinv j r).
  - injection Hstep as <-.
    destruct (newSubConn_maps gb r0)
      as (-> & [[_ ->] | (sc & _ & _ & _ & ->)]); [apply Hinv|].
    rewrite lookup_insert_Some. intros [[_ <-] | [_ Hj]]; [simpl; lia|].
    now apply (Hinv j r).
  - apply bindSubConn_Ok in Hstep as (ref & Href & -> & _ & ->).
    rewrite lookup_insert_Some. intros [[<- _] | [Hne Hj]] Hpos.
    + destruct (affinityMap gb !! key) as [sc0|] eqn:E.
      * exists key. rewrite E. f_equal. now apply Hsame.
      * exists key. apply lookup_insert_eq.
    + destruct (Hinv j r Hj Hpos) as (k & Hk).
      destruct (affinityMap gb !! key) as [sc0|] eqn:E; [eauto|].
      exists k. rewrite lookup_insert_ne; [exact Hk | congruence].
  - apply unbindSubConn_Ok in Hstep
      as [[_ ->] | (sc & ref & Hk & Href & -> & _ & ->)]; [apply Hinv|].
    rewrite lookup_insert_Some. intros [[<- <-] | [Hne Hj]] Hpos.
    + exists key. destruct (Z.leb_spec (affinityCnt (affinityDecr ref)) 0);
        [lia | exact Hk].
    + destruct (Hinv j r Hj Hpos) as (k & Hkj).
      exists k. destruct (_ <=? _); [|exact Hkj].
      rewrite lookup_delete_ne; [exact Hkj | congruence].
  - injection Hstep as <-.
    destruct (HandleSubConnStateChange_maps gb sc s) as (-> & H).
    destruct (scStates gb !! sc) as [oldS|] eqn:E; [|rewrite H; apply Hinv].
    destruct (decide (s = Shutdown)); destruct H as [_ ->]; [|apply Hinv].
    rewrite lookup_delete_Some. intros [_ Hj]. now apply (Hinv j r).
  - injection Hstep as <-. apply Hinv.
Qed.

Lemma positiveHasKey_Build : positiveHasKey Build.
Proof. intros sc ref H. simpl in H. rewrite lookup_empty in H. discriminate. Qed.

(** C6 (amended): [HandleSubConnStateChange] with [Shutdown] removes the
    reference of a tracked connection and leaves the affinity table as it
    is.  Apart from that, the two halves of the equivalence hold under these
    conditions.  Only if: in every state reached from [Build] by exclusive
    uses of the table (fresh handles, a key bound only to a connection that
    no other key is bound to, no [Shutdown] of a connection that a key is
    bound to, counts below 2^31-1), every key in the affinity table maps to
    a tracked connection with a strictly positive [affinityCnt].  If: in
    every state reached from [Build] by a run in which a key that is bound
    is bound again only to the connection it is bound to, every tracked
    connection with a strictly positive [affinityCnt] has a key in the
    affinity table that maps to it. *)
Theorem C6_present_iff_positive_in_exclusive_runs
    (ops : list Op) (gb gb0 : gcpBalancer) (sc : SubConn) :
  (runWhere exclusive Build ops -> run Build ops = Ok gb ->
   presentIffPositive gb /\
   forall key h, affinityMap gb !! key = Some h ->
     exists ref, scRefs gb !! h = Some ref /\ 0 < affinityCnt ref) /\
  (runWhere sameTarget Build ops -> run Build ops = Ok gb ->
   positiveHasKey gb) /\
  (is_Some (scStates gb0 !! sc) ->
   affinityMap (HandleSubConnStateChange gb0 sc Shutdown) = affinityMap gb0 /\
   scRefs (HandleSubConnStateChange gb0 sc Shutdown) !! sc = None).
Proof.
  split; [|split].
  - intros Hex Hrun.
    pose proof (runWhere_invariant affinityInv exclusive affinityInv_step
                  ops Build gb Hex affinityInv_Build Hrun) as Hinv.
    split; [now apply affinityInv_presentIffPositive|].
    apply Hinv.
  - intros Hsame Hrun.
    apply (runWhere_invariant positiveHasKey sameTarget positiveHasKey_step
             ops Build gb Hsame positiveHasKey_Build Hrun).
  - intros [oldS E].
    destruct (HandleSubConnStateChange_maps gb0 sc Shutdown) as (A & H).
    rewrite E in H. simpl in H. destruct H as [_ C].
    split; [exact A|]. rewrite C. apply lookup_delete_eq.
Qed.

Lemma C6_present_iff_positive_witness :
  presentIffPositive
    (match run Build [OpNewSubConn (Some 1%nat); OpBind "k" 1%nat;
                      OpBind "k" 1%nat; OpUnbind "k"]
     with Ok g => g | Panic => Build end) /\
  positiveHasKey
    (match run Build [OpNewSubConn (Some 1%nat); OpBind "k" 1%nat;
                      OpBind "k" 1%nat; OpUnbind "k"]
     with Ok g => g | Panic => Build end) /\
  affinityMap (HandleSubConnStateChange (newSubConn Build (Some 1%nat)) 1%nat Shutdown)
    = affinityMap (newSubConn Build (Some 1%nat)) /\
  scRefs (HandleSubConnStateChange (newSubConn Build (Some 1%nat)) 1%nat Shutdown)
    !! 1%nat = None.
Proof.
  destruct (C6_present_iff_positive_in_exclusive_runs
              [OpNewSubConn (Some 1%nat); OpBind "k" 1%nat;
               OpBind "k" 1%nat; OpUnbind "k"]
              (match run Build [OpNewSubConn (Some 1%nat); OpBind "k" 1%nat;
                                OpBind "k" 1%nat; OpUnbind "k"]
               with Ok g => g | Panic => Build end)
              (newSubConn Build (Some 1%nat)) 1%nat)
    as (Hruns & Hkeys & Hshutdown).
  split; [|split].
  - apply Hruns; [|reflexivity].
    eapply runWhere_cons; [| reflexivity |].
    { split; [|exact I]. intros h <-. reflexivity. }
    eapply runWhere_cons; [| vm_compute; reflexivity |].
    { split; [intros h []|]. split.
      - intros _ k H. vm_compute in H. discriminate.
      - intros ref H. vm_compute in H. injection H as <-. reflexivity. }
    eapply runWhere_cons; [| vm_compute; reflexivity |].
    { split; [intros h []|]. split.
      - intros H. vm_compute in H. discriminate.
      - intros ref H. vm_compute in H. injection H as <-. reflexivity. }
    eapply runWhere_cons; [| vm_compute; reflexivity |].
    { split; [intros h []|]. exact I. }
    exact I.
  - apply Hkeys; [|reflexivity].
    eapply runWhere_cons; [| reflexivity |]; [exact I|].
    eapply runWhere_cons; [| vm_compute; reflexivity |].
    { intros sc0 H. vm_compute in H. discriminate. }
    eapply runWhere_cons; [| vm_compute; reflexivity |].
    { intros sc0 H. vm_compute in H. now injection H as <-. }
    eapply runWhere_cons; [| vm_compute; reflexivity |]; [exact I|].
    exact I.
  - apply Hshutdown. exists Idle. reflexivity.
Defined.

End KeyClaims.

(** * Further properties of the balancer *)

(** ** The pool and its maps *)

Section PoolShape.
Import Evaluator Balancer.

Lemma consistent_size gb :
  consistent gb -> size (scRefs gb) = size (scStates gb).
Proof.
  intros [Hdom _].
  rewrite <- (size_dom (D := gset nat) (scRefs gb)).
  rewrite <- (size_dom (D := gset nat) (scStates gb)).
  f_equal. apply set_eq. intros sc. rewrite !elem_of_dom. symmetry. apply Hdom.
Qed.

(** X1: in every state reached from [Build] by a run that completes, the
    state map and the reference map hold the same handles, every reference
    is stored under the handle of its own [subConn], and
    [getConnectionPoolSize] is the number of tracked connection states. *)
Theorem X1_state_map_and_ref_map_agree (ops : list Op) (gb : gcpBalancer) :
  run Build ops = Ok gb ->
  (forall sc, is_Some (scStates gb !! sc) <-> is_Some (scRefs gb !! sc)) /\
  (forall sc ref, scRefs gb !! sc = Some ref -> subConn ref = sc) /\
  getConnectionPoolSize gb = size (scStates gb).
Proof.
  intros Hrun.
  pose proof (consistent_run ops Build gb consistent_Build Hrun) as Hc.
  split; [apply Hc|]. split; [apply Hc|].
  unfold getConnectionPoolSize. now apply consistent_size.
Qed.

Lemma X1_state_map_and_ref_map_agree_witness :
  getConnectionPoolSize
    (HandleSubConnStateChange
       (newSubConn (newSubConn Build (Some 1%nat)) (Some 2%nat)) 1%nat Shutdown)
  = size (scStates
            (HandleSubConnStateChange
               (newSubConn (newSubConn Build (Some 1%nat)) (Some 2%nat))
               1%nat Shutdown)).
Proof.
  apply (X1_state_map_and_ref_map_agree
           [OpNewSubConn (Some 1%nat); OpNewSubConn (Some 2%nat);
            OpStateChange 1%nat Shutdown]).
  reflexivity.
Defined.

Lemma withCalls_nil gb : withCalls [] gb = gb.
Proof. destruct gb. reflexivity. Qed.

Lemma withCalls_app cs1 cs2 gb :
  withCalls cs1 (withCalls cs2 gb) = withCalls (cs1 ++ cs2) gb.
Proof. unfold withCalls. simpl. now rewrite app_assoc. Qed.

(** The loop [for _, scRef := range gb.scRefs] of [HandleResolvedAddrs]
    only sends calls. *)
Lemma refresh_fold a (l : list (nat * subConnRef)) : forall gb,
  fold_left
    (fun g kv =>
       let sc := subConn (snd kv) in
       call (CallConnect sc) (call (CallUpdateAddresses sc a) g)) l gb
  = withCalls (rev (flat_map (refreshCalls a) l)) gb.
Proof.
  induction l as [|kv l IH]; intros gb.
  - simpl. now rewrite withCalls_nil.
  - simpl fold_left. rewrite IH.
    change (call (CallConnect (subConn (snd kv)))
              (call (CallUpdateAddresses (subConn (snd kv)) a) gb))
      with (withCalls (rev (refreshCalls a kv)) gb).
    rewrite withCalls_app.
    change (flat_map (refreshCalls a) (kv :: l))
      with (refreshCalls a kv ++ flat_map (refreshCalls a) l).
    now rewrite rev_app_distr.
Qed.

Lemma length_refreshCalls a (l : list (nat * subConnRef)) :
  length (flat_map (refreshCalls a) l) = (2 * length l)%nat.
Proof. induction l as [|kv l IH]; simpl; [reflexivity|]. rewrite IH. lia. Qed.

(** X2: [HandleResolvedAddrs] called with an error changes nothing, not
    even the addresses.  Called without error on a pool that is not empty,
    it stores the new addresses, creates no connection and changes none of
    the maps; it sends exactly two calls per tracked connection, an
    [UpdateAddresses] with the new addresses and a [Connect]. *)
Theorem X2_HandleResolvedAddrs_refreshes_the_pool
    (gb : gcpBalancer) (a : list Address) (r : option SubConn) :
  HandleResolvedAddrs gb a true r = gb /\
  (consistent gb -> size (scRefs gb) <> 0%nat ->
   exists cs,
     HandleResolvedAddrs gb a false r = withCalls cs (set_addrs a gb) /\
     length cs = (2 * getConnectionPoolSize gb)%nat /\
     forall c, c ∈ cs <->
       exists sc, is_Some (scStates gb !! sc) /\
                  (c = CallUpdateAddresses sc a \/ c = CallConnect sc)).
Proof.
  split; [reflexivity|]. intros [Hdom Hown] Hnz.
  exists (rev (flat_map (refreshCalls a) (map_to_list (scRefs gb)))).
  split; [|split].
  - unfold HandleResolvedAddrs. cbv zeta.
    change (scRefs (set_addrs a gb)) with (scRefs gb).
    destruct (Nat.eqb_spec (size (scRefs gb)) 0); [contradiction|].
    apply refresh_fold.
  - rewrite length_rev, length_refreshCalls, length_map_to_list. reflexivity.
  - intros c. rewrite list_elem_of_In, <- in_rev, in_flat_map. split.
    + intros ([sc ref] & Hin & Hc).
      apply list_elem_of_In, elem_of_map_to_list in Hin.
      exists sc. split; [apply Hdom; eauto|].
      rewrite <- (Hown sc ref Hin).
      simpl in Hc. destruct Hc as [<- | [<- | []]]; auto.
    + intros (sc & Htracked & Hc).
      apply Hdom in Htracked as [ref Href].
      exists (sc, ref). split.
      * apply list_elem_of_In, elem_of_map_to_list. exact Href.
      * simpl. rewrite (Hown sc ref Href). destruct Hc as [-> | ->]; auto.
Qed.

Lemma X2_HandleResolvedAddrs_witness :
  exists cs,
    HandleResolvedAddrs (newSubConn Build (Some 1%nat)) ["10.0.0.2:443"] false None
      = withCalls cs (set_addrs ["10.0.0.2:443"] (newSubConn Build (Some 1%nat))) /\
    length cs = 2%nat.
Proof.
  destruct (proj2 (X2_HandleResolvedAddrs_refreshes_the_pool
                     (newSubConn Build (Some 1%nat)) ["10.0.0.2:443"] None))
    as (cs & Heq & Hlen & _).
  - apply (consistent_run [OpNewSubConn (Some 1%nat)] Build);
      [apply consistent_Build | reflexivity].
  - vm_compute. discriminate.
  - exists cs. split; [exact Heq | exact Hlen].
Defined.

Lemma anyConnecting_empty gb : scStates gb = ∅ -> anyConnecting gb = false.
Proof. intros H. unfold anyConnecting. now rewrite H, map_to_list_empty. Qed.

(** X3: on an empty pool, [HandleResolvedAddrs] without error asks the host
    for one connection with health checking enabled.  When the host returns
    a handle, that connection is the only one tracked, in state [Idle] with
    both counts at zero, and it is asked to connect; when the host fails,
    the pool stays empty and only the request has been sent, so that the
    next resolution asks again. *)
Theorem X3_first_resolution_creates_one_connection
    (gb : gcpBalancer) (a : list Address) (sc : SubConn) :
  consistent gb -> getConnectionPoolSize gb = 0%nat ->
  (let gb' := HandleResolvedAddrs gb a false (Some sc) in
   scStates gb' = {[ sc := Idle ]} /\
   scRefs gb' = {[ sc := mkRef sc 0 0 ]} /\
   getConnectionPoolSize gb' = 1%nat /\
   addrs gb' = a /\
   cc gb' = CallConnect sc :: CallNewSubConn a true :: cc gb /\
   affinityMap gb' = affinityMap gb /\ state gb' = state gb /\
   picker gb' = picker gb) /\
  (let gb' := HandleResolvedAddrs gb a false None in
   gb' = withCalls [CallNewSubConn a true] (set_addrs a gb) /\
   getConnectionPoolSize gb' = 0%nat /\
   forall a', cc (HandleResolvedAddrs gb' a' false None)
              = CallNewSubConn a' true :: cc gb').
Proof.
  unfold getConnectionPoolSize. intros Hc Hz.
  pose proof (consistent_empty_pool gb Hc Hz) as Hs.
  pose proof (map_size_empty_inv _ Hz) as Hr.
  assert (Hcreate : forall a0 r, HandleResolvedAddrs gb a0 false r
                                 = newSubConn (set_addrs a0 gb) r).
  { intros a0 r. unfold HandleResolvedAddrs. cbv zeta.
    change (scRefs (set_addrs a0 gb)) with (scRefs gb). now rewrite Hz. }
  assert (Hguard : forall a0, anyConnecting (set_addrs a0 gb) = false).
  { intros a0. now apply anyConnecting_empty. }
  split; cbv zeta; rewrite Hcreate; unfold newSubConn; rewrite Hguard; simpl.
  - rewrite Hs, Hr, !insert_empty. repeat split; try reflexivity.
    apply map_size_singleton.
  - split; [reflexivity|]. split; [exact Hz|].
    intros a'. unfold HandleResolvedAddrs. simpl. rewrite Hz. simpl.
    unfold newSubConn.
    rewrite anyConnecting_empty by (simpl; exact Hs). reflexivity.
Qed.

Lemma X3_first_resolution_witness :
  scStates (HandleResolvedAddrs Build ["10.0.0.1:443"] false (Some 1%nat))
    = {[ 1%nat := Idle ]} /\
  cc (HandleResolvedAddrs Build ["10.0.0.1:443"] false (Some 1%nat))
    = [CallConnect 1%nat; CallNewSubConn ["10.0.0.1:443"] true].
Proof.
  destruct (X3_first_resolution_creates_one_connection
              Build ["10.0.0.1:443"] 1%nat consistent_Build eq_refl)
    as [(Hs & _ & _ & _ & Hcc & _) _].
  split; [exact Hs | exact Hcc].
Defined.

End PoolShape.

(** ** The picker *)

Section PickerFacts.
Import Evaluator Balancer.

Local Abbreviation isReady := (fun kv : nat * State => snd kv = Ready).

Lemma ready_list_NoDup_fst (m : gmap nat State) :
  NoDup ((filter isReady (map_to_list m)).*1).
Proof.
  apply NoDup_fmap_fst.
  - intros x y1 y2 H1 H2.
    apply list_elem_of_filter in H1 as [_ H1], H2 as [_ H2].
    apply elem_of_map_to_list in H1, H2. congruence.
  - apply NoDup_filter, NoDup_map_to_list.
Qed.

Lemma ready_list_length (m : gmap nat State) :
  length (filter isReady (map_to_list m)) = size (filter isReady m).
Proof.
  rewrite map_filter_alt, <- length_map_to_list.
  symmetry. apply Permutation_length, map_to_list_to_map, ready_list_NoDup_fst.
Qed.

(** In a consistent balancer the snapshot of [regeneratePicker] holds no
    nil pointer: it is the list of the handles in state [Ready]. *)
Lemma ready_snapshot gb :
  consistent gb ->
  (fun kv : nat * State => subConn <$> (scRefs gb !! fst kv))
    <$> filter isReady (map_to_list (scStates gb))
  = Some <$> (filter isReady (map_to_list (scStates gb))).*1.
Proof.
  intros [Hdom Hown]. rewrite <- list_fmap_compose.
  apply Forall_fmap_ext_1, Forall_forall. intros [sc s] Hin.
  apply list_elem_of_filter in Hin as [_ Hin].
  apply elem_of_map_to_list in Hin.
  assert (is_Some (scRefs gb !! sc)) as [ref Href] by (apply Hdom; eauto).
  simpl. rewrite Href. simpl. now rewrite (Hown sc ref Href).
Qed.

Lemma ready_snapshot_lists gb :
  listsReady gb (Some <$> (filter isReady (map_to_list (scStates gb))).*1).
Proof.
  split.
  - apply (NoDup_fmap_2 Some), ready_list_NoDup_fst.
  - intros x. rewrite list_elem_of_fmap. split.
    + intros (sc & -> & Hin). exists sc. split; [reflexivity|].
      apply list_elem_of_fmap in Hin as ([sc' s] & -> & Hin).
      apply list_elem_of_filter in Hin as [Hs Hin]. simpl in Hs. subst s.
      now apply elem_of_map_to_list in Hin.
    + intros (sc & -> & Hs). exists sc. split; [reflexivity|].
      apply list_elem_of_fmap. exists (sc, Ready). split; [reflexivity|].
      apply list_elem_of_filter. split; [reflexivity|].
      now apply elem_of_map_to_list.
Qed.

Lemma regeneratePicker_ready gb :
  consistent gb -> state gb <> TransientFailure ->
  regeneratePicker gb
  = set_picker
      (gcpPicker (Some <$> (filter isReady (map_to_list (scStates gb))).*1)) gb.
Proof.
  intros Hc Hne. unfold regeneratePicker.
  destruct (decide (state gb = TransientFailure)); [contradiction|].
  cbv zeta. now rewrite (ready_snapshot gb Hc).
Qed.

Lemma regeneratePicker_failure gb :
  state gb = TransientFailure ->
  regeneratePicker gb = set_picker (errPicker ErrTransientFailure) gb.
Proof. intros H. unfold regeneratePicker. now rewrite decide_True. Qed.

(** X4: [regeneratePicker] changes the picker only.  In a balancer whose
    two maps agree, it installs the picker that fails with
    [ErrTransientFailure] when the aggregated state is [TransientFailure];
    otherwise the picker built from a snapshot that lists, once each and
    without nil pointer, exactly the tracked connections in state [Ready],
    as many as there are. *)
Theorem X4_regeneratePicker_snapshots_the_ready_connections (gb : gcpBalancer) :
  consistent gb ->
  (state gb = TransientFailure ->
   regeneratePicker gb = set_picker (errPicker ErrTransientFailure) gb) /\
  (state gb <> TransientFailure ->
   exists l,
     regeneratePicker gb = set_picker (gcpPicker l) gb /\
     listsReady gb l /\
     length l = countState Ready gb).
Proof.
  intros Hc. split.
  - apply regeneratePicker_failure.
  - intros Hne. eexists. split; [apply (regeneratePicker_ready gb Hc Hne)|].
    split; [apply ready_snapshot_lists|].
    rewrite !length_fmap. apply ready_list_length.
Qed.

Lemma X4_regeneratePicker_witness :
  exists l,
    regeneratePicker
      (HandleSubConnStateChange (newSubConn Build (Some 1%nat)) 1%nat Ready)
    = set_picker (gcpPicker l)
        (HandleSubConnStateChange (newSubConn Build (Some 1%nat)) 1%nat Ready) /\
    length l = 1%nat.
Proof.
  destruct (proj2 (X4_regeneratePicker_snapshots_the_ready_connections
                     (HandleSubConnStateChange (newSubConn Build (Some 1%nat))
                                               1%nat Ready)
                     (consistent_run
                        [OpNewSubConn (Some 1%nat); OpStateChange 1%nat Ready]
                        Build _ consistent_Build eq_refl)))
    as (l & Heq & _ & Hlen).
  - vm_compute. discriminate.
  - exists l. split; [exact Heq | exact Hlen].
Defined.

End PickerFacts.

(** ** State changes and what is published *)

Section PublishFacts.
Import Evaluator Balancer.

Lemma flips_bool oldS s oldAggr newAggr :
  negb (eqb (bool_decide (s = Ready)) (bool_decide (oldS = Ready)))
  || negb (eqb (bool_decide (newAggr = TransientFailure))
               (bool_decide (oldAggr = TransientFailure))) = true
  <-> flips oldS s oldAggr newAggr.
Proof.
  unfold flips. repeat case_bool_decide; simpl; split; intros Hfl;
    try reflexivity; try discriminate; tauto.
Qed.

Lemma regeneratePicker_cc gb :
  cc (regeneratePicker gb) = cc gb /\ addrs (regeneratePicker gb) = addrs gb.
Proof.
  unfold regeneratePicker.
  destruct (decide (state gb = TransientFailure)); simpl; auto.
Qed.

(** [HandleSubConnStateChange] on a tracked handle, in two stages: the
    balancer [g] after the new state is recorded and the transition
    evaluated, then the publication, if any. *)
Lemma HandleSubConnStateChange_stages gb sc s oldS :
  scStates gb !! sc = Some oldS ->
  exists g,
    (addrs g = addrs gb /\ picker g = picker gb /\
     affinityMap g = affinityMap gb /\
     cc g = reconnect sc s ++ cc gb) /\
    (csEvltr g = fst (RecordTransition (csEvltr gb) oldS s) /\
     state g = snd (RecordTransition (csEvltr gb) oldS s)) /\
    (scStates g = (if decide (s = Shutdown) then delete sc (scStates gb)
                   else <[sc := s]> (scStates gb)) /\
     scRefs g = (if decide (s = Shutdown) then delete sc (scRefs gb)
                 else scRefs gb)) /\
    HandleSubConnStateChange gb sc s =
      if negb (eqb (bool_decide (s = Ready)) (bool_decide (oldS = Ready)))
         || negb (eqb (bool_decide (state g = TransientFailure))
                      (bool_decide (state gb = TransientFailure)))
      then call (CallUpdateBalancerState (state (regeneratePicker g))
                                         (picker (regeneratePicker g)))
                (regeneratePicker g)
      else g.
Proof.
  intros E. unfold HandleSubConnStateChange. rewrite E. cbv zeta.
  match goal with
  | |- context [RecordTransition (csEvltr ?g) oldS s] =>
      set (g1 := g);
      assert (H1 : csEvltr g1 = csEvltr gb /\ state g1 = state gb /\
                   addrs g1 = addrs gb /\ picker g1 = picker gb /\
                   affinityMap g1 = affinityMap gb /\
                   cc g1 = reconnect sc s ++ cc gb /\
                   scStates g1 = (if decide (s = Shutdown)
                                  then delete sc (scStates gb)
                                  else <[sc := s]> (scStates gb)) /\
                   scRefs g1 = (if decide (s = Shutdown)
                                then delete sc (scRefs gb) else scRefs gb))
        by (subst g1; destruct s; simpl; rewrite ?delete_insert_eq;
            repeat split; reflexivity)
  end.
  destruct H1 as (Hc & Hst & Ha & Hp & Hm & Hcc & Hs & Hr).
  rewrite Hc, Hst.
  destruct (RecordTransition (csEvltr gb) oldS s) as [cse st].
  exists (set_eval cse st g1). simpl.
  repeat split; assumption.
Qed.

Lemma consistent_stage gb g sc s oldS :
  consistent gb -> scStates gb !! sc = Some oldS ->
  scStates g = (if decide (s = Shutdown) then delete sc (scStates gb)
                else <[sc := s]> (scStates gb)) ->
  scRefs g = (if decide (s = Shutdown) then delete sc (scRefs gb)
              else scRefs gb) ->
  consistent g.
Proof.
  intros [Hdom Hown] E Hs Hr. unfold consistent. rewrite Hs, Hr.
  destruct (decide (s = Shutdown)); split.
  - intros j. rewrite !lookup_delete_is_Some, (Hdom j). reflexivity.
  - intros j r. rewrite lookup_delete_Some. intros [_ Hj]. eauto.
  - intros j. rewrite is_Some_insert_present by eauto. apply Hdom.
  - exact Hown.
Qed.

(** For a tracked connection, [HandleSubConnStateChange] publishes exactly
    when the connection enters or leaves [Ready] or the aggregated
    state enters or leaves [TransientFailure].  It then regenerates the
    picker and its latest call to the host is [UpdateBalancerState] with the
    new aggregated state and that picker: the error picker in
    [TransientFailure], otherwise a snapshot of exactly the [Ready]
    connections.  In the other cases the picker is kept and nothing is
    published.  A connection that went [Idle] is asked to connect in both
    cases. *)
Lemma HandleSubConnStateChange_publication
    (gb : gcpBalancer) (sc : SubConn) (s oldS : State) :
  consistent gb ->
  scStates gb !! sc = Some oldS ->
  let gb' := HandleSubConnStateChange gb sc s in
  state gb' = snd (RecordTransition (csEvltr gb) oldS s) /\
  (flips oldS s (state gb) (state gb') ->
   cc gb' = CallUpdateBalancerState (state gb') (picker gb')
              :: reconnect sc s ++ cc gb /\
   (state gb' = TransientFailure -> picker gb' = errPicker ErrTransientFailure) /\
   (state gb' <> TransientFailure ->
    exists l, picker gb' = gcpPicker l /\ listsReady gb' l)) /\
  (~ flips oldS s (state gb) (state gb') ->
   cc gb' = reconnect sc s ++ cc gb /\ picker gb' = picker gb).
Proof.
  intros Hc E. cbv zeta.
  destruct (HandleSubConnStateChange_stages gb sc s oldS E)
    as (g & (_ & Hp & _ & Hcc) & (_ & Hst) & (Hs & Hr) & Heq).
  pose proof (consistent_stage gb g sc s oldS Hc E Hs Hr) as Hg.
  pose proof (flips_bool oldS s (state gb) (state g)) as Hflip.
  destruct (negb _ || negb _) eqn:B in Heq; rewrite Heq.
  - assert (Hstate : state (call (CallUpdateBalancerState
                        (state (regeneratePicker g)) (picker (regeneratePicker g)))
                        (regeneratePicker g)) = state g).
    { simpl. apply regeneratePicker_maps. }
    rewrite Hstate. split; [exact Hst|]. split.
    + intros _. simpl cc. simpl picker.
      split; [|split].
      * destruct (regeneratePicker_maps g) as (_ & _ & _ & D & _).
        rewrite D. f_equal.
        rewrite (proj1 (regeneratePicker_cc g)). exact Hcc.
      * intros H. rewrite (regeneratePicker_failure g H). reflexivity.
      * intros H. rewrite (regeneratePicker_ready g Hg H).
        eexists. split; [reflexivity|]. apply (ready_snapshot_lists g).
    + intros Hn. exfalso. apply Hn. apply Hflip. rewrite <- B. reflexivity.
  - split; [exact Hst|]. split.
    + intros Hf. apply Hflip in Hf. rewrite B in Hf. discriminate.
    + intros _. split; assumption.
Qed.

End PublishFacts.

(** ** What the host sees *)

Section HostView.
Import Evaluator Balancer.

(** X5: for a tracked connection in a balancer whose two maps agree,
    [HandleSubConnStateChange] sets the aggregated state to the value
    returned by [RecordTransition] and publishes exactly when the connection
    enters or leaves [Ready] or the aggregated state enters or leaves
    [TransientFailure].  It then regenerates the picker, and its latest call
    to the host is [UpdateBalancerState] with the new state and that picker:
    the error picker in [TransientFailure], otherwise a snapshot listing
    exactly the [Ready] connections.  Otherwise the picker is kept and
    nothing is published.  A connection gone [Idle] is asked to connect in
    both cases. *)
Theorem X5_HandleSubConnStateChange_publishes_on_flips
    (gb : gcpBalancer) (sc : SubConn) (s oldS : State) :
  consistent gb ->
  scStates gb !! sc = Some oldS ->
  let gb' := HandleSubConnStateChange gb sc s in
  state gb' = snd (RecordTransition (csEvltr gb) oldS s) /\
  (flips oldS s (state gb) (state gb') ->
   cc gb' = CallUpdateBalancerState (state gb') (picker gb')
              :: reconnect sc s ++ cc gb /\
   (state gb' = TransientFailure -> picker gb' = errPicker ErrTransientFailure) /\
   (state gb' <> TransientFailure ->
    exists l, picker gb' = gcpPicker l /\ listsReady gb' l)) /\
  (~ flips oldS s (state gb) (state gb') ->
   cc gb' = reconnect sc s ++ cc gb /\ picker gb' = picker gb).
Proof. apply HandleSubConnStateChange_publication. Qed.

Lemma X5_HandleSubConnStateChange_witness :
  cc (HandleSubConnStateChange (newSubConn Build (Some 1%nat)) 1%nat Ready)
  = CallUpdateBalancerState Ready (gcpPicker [Some 1%nat])
      :: cc (newSubConn Build (Some 1%nat)) /\
  cc (HandleSubConnStateChange (newSubConn Build (Some 1%nat)) 1%nat Connecting)
  = cc (newSubConn Build (Some 1%nat)) /\
  picker (HandleSubConnStateChange (newSubConn Build (Some 1%nat)) 1%nat Connecting)
  = errPicker ErrNoSubConnAvailable.
Proof.
  destruct (X5_HandleSubConnStateChange_publishes_on_flips
              (newSubConn Build (Some 1%nat)) 1%nat Ready Idle
              (consistent_run [OpNewSubConn (Some 1%nat)] Build _
                 consistent_Build eq_refl) eq_refl) as (_ & Hpub & _).
  destruct (X5_HandleSubConnStateChange_publishes_on_flips
              (newSubConn Build (Some 1%nat)) 1%nat Connecting Idle
              (consistent_run [OpNewSubConn (Some 1%nat)] Build _
                 consistent_Build eq_refl) eq_refl) as (_ & _ & Hkeep).
  split.
  - apply Hpub. left. intros [H _]. specialize (H eq_refl). discriminate.
  - apply Hkeep. intros [H | H]; apply H; vm_compute; split; intros E;
      discriminate E.
Defined.

Lemma classic_flips oldS s oldAggr newAggr :
  flips oldS s oldAggr newAggr \/ ~ flips oldS s oldAggr newAggr.
Proof.
  destruct (negb (eqb (bool_decide (s = Ready)) (bool_decide (oldS = Ready)))
            || negb (eqb (bool_decide (newAggr = TransientFailure))
                         (bool_decide (oldAggr = TransientFailure)))) eqn:B.
  - left. now apply flips_bool.
  - right. intros H. apply flips_bool in H. congruence.
Qed.

Lemma lastPublished_app cs l :
  Forall (fun c => forall s p, c <> CallUpdateBalancerState s p) cs ->
  lastPublished (cs ++ l) = lastPublished l.
Proof.
  induction 1 as [|c cs Hc _ IH]; simpl; [reflexivity|].
  destruct c; try exact IH. exfalso. now apply (Hc s p).
Qed.

Lemma hostInSync_frame gb gb' cs :
  hostInSync gb ->
  Forall (fun c => forall s p, c <> CallUpdateBalancerState s p) cs ->
  cc gb' = cs ++ cc gb -> picker gb' = picker gb -> state gb' = state gb ->
  hostInSync gb'.
Proof.
  unfold hostInSync. intros H Hcs -> -> ->. now rewrite lastPublished_app.
Qed.

Lemma newSubConn_calls gb r :
  exists cs,
    Forall (fun c => forall s p, c <> CallUpdateBalancerState s p) cs /\
    cc (newSubConn gb r) = cs ++ cc gb /\
    picker (newSubConn gb r) = picker gb.
Proof.
  unfold newSubConn. destruct (anyConnecting gb).
  - exists []. auto.
  - destruct r as [sc|]; simpl.
    + exists [CallConnect sc; CallNewSubConn (addrs gb) healthCheckEnabled].
      split; [|auto]. repeat constructor; discriminate.
    + exists [CallNewSubConn (addrs gb) healthCheckEnabled].
      split; [|auto]. repeat constructor; discriminate.
Qed.

Lemma HandleResolvedAddrs_calls gb a err r :
  exists cs,
    Forall (fun c => forall s p, c <> CallUpdateBalancerState s p) cs /\
    cc (HandleResolvedAddrs gb a err r) = cs ++ cc gb /\
    picker (HandleResolvedAddrs gb a err r) = picker gb.
Proof.
  unfold HandleResolvedAddrs. destruct err; [exists []; auto|]. cbv zeta.
  destruct (_ =? _)%nat.
  - apply (newSubConn_calls (set_addrs a gb) r).
  - rewrite refresh_fold.
    exists (rev (flat_map (refreshCalls a) (map_to_list (scRefs gb)))).
    split; [|auto].
    apply Forall_forall. intros c Hin s p ->.
    apply list_elem_of_In, in_rev, in_flat_map in Hin as (kv & _ & Hin).
    simpl in Hin. destruct Hin as [H | [H | []]]; discriminate.
Qed.

Lemma bindSubConn_host gb key sc gb' :
  bindSubConn gb key sc = Ok gb' ->
  cc gb' = cc gb /\ picker gb' = picker gb /\ addrs gb' = addrs gb.
Proof.
  unfold bindSubConn, onRef.
  destruct (affinityMap gb !! key); simpl;
    destruct (scRefs gb !! sc); intros H; try discriminate;
    injection H as <-; auto.
Qed.

Lemma unbindSubConn_host gb key gb' :
  unbindSubConn gb key = Ok gb' ->
  cc gb' = cc gb /\ picker gb' = picker gb /\ addrs gb' = addrs gb.
Proof.
  intros H.
  destruct (affinityMap gb !! key) as [sc|] eqn:Ek.
  - destruct (scRefs gb !! sc) as [ref|] eqn:Er.
    + rewrite (unbindSubConn_Some gb key sc ref Ek Er) in H. injection H as <-.
      cbv zeta. destruct (_ <=? _); auto.
    + now rewrite (unbindSubConn_stale gb key sc Ek Er) in H.
  - rewrite (unbindSubConn_unbound gb key Ek) in H. injection H as <-. auto.
Qed.

Lemma reconnect_not_publish sc s :
  Forall (fun c => forall s' p, c <> CallUpdateBalancerState s' p) (reconnect sc s).
Proof. destruct s; simpl; repeat constructor; discriminate. Qed.

Lemma hostInSync_step gb op gb' :
  True -> consistent gb /\ hostInSync gb -> step gb op = Ok gb' ->
  consistent gb' /\ hostInSync gb'.
Proof.
  intros _ [Hc Hsync] Hstep.
  split; [now apply (consistent_step gb op gb')|].
  destruct op as [a err r|r|key sc|key|sc s|]; simpl in Hstep.
  - injection Hstep as <-.
    destruct (HandleResolvedAddrs_calls gb a err r) as (cs & Hcs & Hcc & Hp).
    apply (hostInSync_frame gb _ cs); auto.
    apply HandleResolvedAddrs_eval.
  - injection Hstep as <-.
    destruct (newSubConn_calls gb r) as (cs & Hcs & Hcc & Hp).
    apply (hostInSync_frame gb _ cs); auto.
    apply newSubConn_eval.
  - destruct (bindSubConn_host _ _ _ _ Hstep) as (Hcc & Hp & _).
    apply (hostInSync_frame gb _ []); auto.
    apply (bindSubConn_eval _ _ _ _ Hstep).
  - destruct (unbindSubConn_host _ _ _ Hstep) as (Hcc & Hp & _).
    apply (hostInSync_frame gb _ []); auto.
    apply (unbindSubConn_eval _ _ _ Hstep).
  - injection Hstep as <-.
    destruct (scStates gb !! sc) as [oldS|] eqn:E.
    + destruct (HandleSubConnStateChange_publication gb sc s oldS Hc E)
        as (_ & Hpub & Hkeep).
      destruct (classic_flips oldS s (state gb)
                  (state (HandleSubConnStateChange gb sc s))) as [Hf | Hn].
      * destruct (Hpub Hf) as (Hcc & _). unfold hostInSync. rewrite Hcc.
        simpl. split; [reflexivity | tauto].
      * destruct (Hkeep Hn) as (Hcc & Hp).
        revert Hsync. unfold hostInSync. rewrite Hcc, Hp.
        rewrite lastPublished_app by apply reconnect_not_publish.
        unfold flips in Hn.
        destruct (lastPublished (cc gb)) as [[s0 p0]|]; intros [H1 H2];
          (split; [exact H1|]).
        -- destruct (decide (state (HandleSubConnStateChange gb sc s)
                             = TransientFailure)),
             (decide (state gb = TransientFailure)); tauto.
        -- destruct (decide (state (HandleSubConnStateChange gb sc s)
                             = TransientFailure)),
             (decide (state gb = TransientFailure)); tauto.
    + unfold HandleSubConnStateChange. rewrite E. exact Hsync.
  - injection Hstep as <-. exact Hsync.
Qed.

Lemma hostInSync_Build : hostInSync Build.
Proof. unfold hostInSync. simpl. split; [reflexivity | discriminate]. Qed.

(** X6: the host always holds the current picker.  In every state reached
    from [Build] by a run that completes, the latest [UpdateBalancerState]
    received by the host carries the picker the balancer holds, and a state
    that is [TransientFailure] iff the aggregated state of the balancer is;
    as long as nothing was published, the balancer holds the picker set by
    [Build], which fails with [ErrNoSubConnAvailable], and its state is not
    [TransientFailure]. *)
Theorem X6_host_holds_the_current_picker (ops : list Op) (gb : gcpBalancer) :
  run Build ops = Ok gb ->
  match lastPublished (cc gb) with
  | Some (s, p) =>
      p = picker gb /\ (s = TransientFailure <-> state gb = TransientFailure)
  | None =>
      picker gb = errPicker ErrNoSubConnAvailable /\
      state gb <> TransientFailure
  end.
Proof.
  intros Hrun.
  apply (run_invariant (fun g => consistent g /\ hostInSync g) (fun _ => True)
           hostInSync_step ops Build gb); auto.
  - apply Forall_forall. auto.
  - split; [apply consistent_Build | apply hostInSync_Build].
Qed.

Lemma X6_host_holds_the_current_picker_witness :
  match lastPublished
          (cc (HandleSubConnStateChange
                 (HandleSubConnStateChange (newSubConn Build (Some 1%nat))
                                           1%nat Ready)
                 1%nat Connecting)) with
  | Some (s, p) =>
      p = picker (HandleSubConnStateChange
                    (HandleSubConnStateChange (newSubConn Build (Some 1%nat))
                                              1%nat Ready)
                    1%nat Connecting) /\
      (s = TransientFailure <->
       state (HandleSubConnStateChange
                (HandleSubConnStateChange (newSubConn Build (Some 1%nat))
                                          1%nat Ready)
                1%nat Connecting) = TransientFailure)
  | None => False
  end.
Proof.
  exact (X6_host_holds_the_current_picker
           [OpNewSubConn (Some 1%nat); OpStateChange 1%nat Ready;
            OpStateChange 1%nat Connecting]
           (HandleSubConnStateChange
              (HandleSubConnStateChange (newSubConn Build (Some 1%nat))
                                        1%nat Ready)
              1%nat Connecting) eq_refl).
Defined.

End HostView.

(** ** The ready set of the picker *)

Section ReadySet.
Import Evaluator Balancer.

Lemma listsReady_ext gb gb' l :
  (forall sc, scStates gb' !! sc = Some Ready <-> scStates gb !! sc = Some Ready) ->
  listsReady gb l -> listsReady gb' l.
Proof.
  intros Hext [Hnd Hl]. split; [exact Hnd|].
  intros x. rewrite (Hl x). split; intros (sc & -> & H); exists sc;
    (split; [reflexivity | now apply Hext]).
Qed.

Lemma register_ready (m : gmap nat State) sc j :
  m !! sc = None ->
  <[sc := Idle]> m !! j = Some Ready <-> m !! j = Some Ready.
Proof.
  intros Hfresh. rewrite lookup_insert_Some. split.
  - intros [[_ H] | [_ H]]; [discriminate | exact H].
  - intros H. right. split; [congruence | exact H].
Qed.

Lemma keep_ready (m : gmap nat State) sc s oldS j :
  m !! sc = Some oldS -> (s = Ready <-> oldS = Ready) ->
  (if decide (s = Shutdown) then delete sc m else <[sc := s]> m) !! j = Some Ready
  <-> m !! j = Some Ready.
Proof.
  intros E Hsame. destruct (decide (s = Shutdown)) as [->|Hne].
  - rewrite lookup_delete_Some. split; [tauto|].
    intros H. split; [|exact H]. intros <-.
    assert (oldS = Ready) by congruence. apply Hsame in H0. discriminate.
  - rewrite lookup_insert_Some. split.
    + intros [[<- Hs] | [_ H]]; [|exact H].
      rewrite E. f_equal. apply Hsame. congruence.
    + intros H. destruct (decide (sc = j)) as [<-|Hj]; [|auto].
      left. split; [reflexivity|]. apply Hsame. congruence.
Qed.

Lemma size_step gb op gb' :
  step gb op = Ok gb' -> (size (scStates gb') <= S (size (scStates gb)))%nat.
Proof.
  intros Hstep. destruct op as [a err r|r|key sc|key|sc s|]; simpl in Hstep.
  - injection Hstep as <-.
    destruct (HandleResolvedAddrs_maps gb a err r)
      as (_ & [[-> _] | (sc & _ & _ & -> & _)]); [lia|].
    rewrite map_size_insert. destruct (scStates gb !! sc); simpl; lia.
  - injection Hstep as <-.
    destruct (newSubConn_maps gb r) as (_ & [[-> _] | (sc & _ & _ & -> & _)]);
      [lia|].
    rewrite map_size_insert. destruct (scStates gb !! sc); simpl; lia.
  - apply bindSubConn_Ok in Hstep as (ref & _ & _ & -> & _). lia.
  - apply unbindSubConn_Ok in Hstep as [[_ ->] | (sc & ref & _ & _ & _ & -> & _)];
      lia.
  - injection Hstep as <-.
    destruct (HandleSubConnStateChange_maps gb sc s) as (_ & H).
    destruct (scStates gb !! sc) as [oldS|] eqn:E; [|rewrite H; lia].
    destruct (decide (s = Shutdown)); destruct H as [-> _].
    + rewrite map_size_delete, E. simpl. lia.
    + rewrite map_size_insert, E. unfold id. lia.
  - injection Hstep as <-. unfold Close. lia.
Qed.

(** With fewer than 2^64 connections, an evaluation to [TransientFailure]
    means that no tracked connection is [Ready]. *)
Lemma failure_no_ready gb :
  counted gb -> Z.of_nat (size (scStates gb)) < 2 ^ 64 ->
  evaluate (csEvltr gb) = TransientFailure ->
  forall sc, scStates gb !! sc <> Some Ready.
Proof.
  intros [_ Hc] Hsz Hev sc Hsc.
  unfold evaluate in Hev. rewrite (Hc Ready _ eq_refl) in Hev.
  pose proof (countState_le_size Ready gb) as Hle.
  rewrite uint64_pos_iff in Hev by lia.
  assert (0 < Z.of_nat (countState Ready gb)) as Hpos
    by (apply cnt_pos_iff; eauto).
  apply Z.ltb_lt in Hpos. rewrite Hpos in Hev. discriminate.
Qed.

Lemma readySet_step gb op gb' :
  fresh gb op ->
  consistent gb -> counted gb' ->
  Z.of_nat (size (scStates gb')) < 2 ^ 64 ->
  listsReady gb (readyRefsOf (picker gb)) ->
  step gb op = Ok gb' ->
  listsReady gb' (readyRefsOf (picker gb')).
Proof.
  unfold fresh. intros Hfresh Hc Hcnt Hsz Hl Hstep.
  destruct op as [a err r|r|key sc|key|sc s|]; simpl in Hstep, Hfresh.
  - injection Hstep as <-.
    destruct (HandleResolvedAddrs_calls gb a err r) as (_ & _ & _ & ->).
    apply (listsReady_ext gb); [|exact Hl]. intros j.
    destruct (HandleResolvedAddrs_maps gb a err r)
      as (_ & [[-> _] | (sc & -> & _ & -> & _)]); [reflexivity|].
    apply register_ready. auto.
  - injection Hstep as <-.
    destruct (newSubConn_calls gb r) as (_ & _ & _ & ->).
    apply (listsReady_ext gb); [|exact Hl]. intros j.
    destruct (newSubConn_maps gb r) as (_ & [[-> _] | (sc & -> & _ & -> & _)]);
      [reflexivity|].
    apply register_ready. auto.
  - destruct (bindSubConn_host _ _ _ _ Hstep) as (_ & -> & _).
    apply bindSubConn_Ok in Hstep as (ref & _ & _ & Hs & _).
    apply (listsReady_ext gb); [|exact Hl]. intros j. now rewrite Hs.
  - destruct (unbindSubConn_host _ _ _ Hstep) as (_ & -> & _).
    apply unbindSubConn_Ok in Hstep as [[_ ->] | (sc & ref & _ & _ & _ & Hs & _)];
      [exact Hl|].
    apply (listsReady_ext gb); [|exact Hl]. intros j. now rewrite Hs.
  - injection Hstep as <-.
    destruct (scStates gb !! sc) as [oldS|] eqn:E;
      [|unfold HandleSubConnStateChange; rewrite E; exact Hl].
    destruct (HandleSubConnStateChange_publication gb sc s oldS Hc E)
      as (Hst & Hpub & Hkeep).
    destruct (HandleSubConnStateChange_eval gb sc s oldS E) as [He _].
    destruct (classic_flips oldS s (state gb)
                (state (HandleSubConnStateChange gb sc s))) as [Hf | Hn].
    + destruct (Hpub Hf) as (_ & Htf & Hok).
      destruct (decide (state (HandleSubConnStateChange gb sc s)
                        = TransientFailure)) as [Ht | Ht].
      * rewrite (Htf Ht). simpl. split; [constructor|].
        intros x. split; [intros Hx; inversion Hx|].
        intros (j & _ & Hj). exfalso.
        apply (failure_no_ready _ Hcnt Hsz) in Hj; [exact Hj|].
        rewrite He, <- Ht, Hst. reflexivity.
      * destruct (Hok Ht) as (l & -> & Hl'). exact Hl'.
    + destruct (Hkeep Hn) as (_ & ->).
      apply (listsReady_ext gb); [|exact Hl]. intros j.
      destruct (HandleSubConnStateChange_maps gb sc s) as (_ & H).
      rewrite E in H.
      assert (Hsame : s = Ready <-> oldS = Ready).
      { unfold flips in Hn.
        destruct (decide (s = Ready)), (decide (oldS = Ready)); tauto. }
      rewrite <- (keep_ready (scStates gb) sc s oldS j E Hsame).
      destruct (decide (s = Shutdown)); destruct H as [-> _]; reflexivity.
  - injection Hstep as <-. exact Hl.
Qed.

Lemma runWhere_snoc adm gb ops op :
  runWhere adm gb (ops ++ [op]) ->
  runWhere adm gb ops /\ (forall g, run gb ops = Ok g -> adm g op).
Proof.
  revert gb. induction ops as [|o ops IH]; intros gb H; simpl in H.
  - destruct H as [H _]. split; [exact I|].
    intros g Hg. simpl in Hg. now injection Hg as <-.
  - destruct H as [Ho H]. simpl.
    destruct (step gb o) as [g1|] eqn:E.
    + destruct (IH g1 H) as [H1 H2]. simpl. auto.
    + split; [auto|]. intros g Hg. discriminate.
Qed.

Lemma readySet_run ops : forall gb,
  freshRun Build ops -> Z.of_nat (length ops) < 2 ^ 64 ->
  run Build ops = Ok gb ->
  (size (scStates gb) <= length ops)%nat /\
  listsReady gb (readyRefsOf (picker gb)).
Proof.
  induction ops as [|op ops IH] using rev_ind; intros gb Hf Hlen Hrun.
  - simpl in Hrun. injection Hrun as <-. simpl.
    rewrite map_size_empty. split; [lia|]. split; [constructor|].
    intros x. split; [intros Hx; inversion Hx|].
    intros (sc & _ & H). unfold Build in H. simpl in H.
    rewrite lookup_empty in H. discriminate.
  - rewrite length_app in Hlen |- *. simpl in Hlen |- *.
    rewrite run_app in Hrun.
    destruct (run Build ops) as [g|] eqn:Eg; [|discriminate].
    simpl in Hrun. destruct (step g op) as [g'|] eqn:Es; [|discriminate].
    simpl in Hrun. injection Hrun as <-.
    apply runWhere_snoc in Hf as [Hf Hop].
    destruct (IH g Hf ltac:(lia) eq_refl) as [Hsz Hl].
    pose proof (size_step g op g' Es) as Hsz'.
    split; [lia|].
    apply (readySet_step g op g'); auto.
    + apply (consistent_run ops Build g consistent_Build Eg).
    + apply (counted_step g op g'); auto.
      apply (counted_run ops Build g Hf counted_Build Eg).
    + lia.
Qed.

(** X7: the picker routes to the [Ready] connections and to them only.  In
    every state reached from [Build] by a run of fewer than 2^64 operations
    in which the host hands out fresh handles, the snapshot of the picker
    the balancer holds lists, once each, exactly the tracked connections in
    state [Ready]; when the balancer holds an error picker, no tracked
    connection is [Ready]. *)
Theorem X7_picker_lists_exactly_the_ready_connections
    (ops : list Op) (gb : gcpBalancer) :
  freshRun Build ops -> Z.of_nat (length ops) < 2 ^ 64 ->
  run Build ops = Ok gb ->
  NoDup (readyRefsOf (picker gb)) /\
  (forall sc, Some sc ∈ readyRefsOf (picker gb) <->
              scStates gb !! sc = Some Ready) /\
  (None ∉ readyRefsOf (picker gb)) /\
  (forall e sc, picker gb = errPicker e -> scStates gb !! sc <> Some Ready).
Proof.
  intros Hf Hlen Hrun.
  destruct (readySet_run ops gb Hf Hlen Hrun) as [_ [Hnd Hl]].
  split; [exact Hnd|]. split; [|split].
  - intros sc. rewrite (Hl (Some sc)). split.
    + intros (j & Hj & H). now injection Hj as ->.
    + intros H. eauto.
  - intros Hin. apply Hl in Hin as (j & Hj & _). discriminate.
  - intros e sc Hp Hsc.
    assert (Some sc ∈ readyRefsOf (picker gb)) as Hin by (apply Hl; eauto).
    rewrite Hp in Hin. simpl in Hin. inversion Hin.
Qed.

Lemma X7_picker_lists_witness :
  Some 2%nat ∈ readyRefsOf
    (picker (HandleSubConnStateChange
               (newSubConn (newSubConn Build (Some 1%nat)) (Some 2%nat))
               2%nat Ready)).
Proof.
  destruct (X7_picker_lists_exactly_the_ready_connections
              [OpNewSubConn (Some 1%nat); OpNewSubConn (Some 2%nat);
               OpStateChange 2%nat Ready]
              (HandleSubConnStateChange
                 (newSubConn (newSubConn Build (Some 1%nat)) (Some 2%nat))
                 2%nat Ready)) as (_ & Hready & _).
  - unfold freshRun, fresh. cbn [runWhere step receives].
    split; [intros h <-; reflexivity|].
    split; [intros h <-; reflexivity|].
    split; [intros h []|]. exact I.
  - vm_compute. reflexivity.
  - reflexivity.
  - apply Hready. reflexivity.
Defined.

End ReadySet.

(** ** Binding and unbinding in sequence *)

Section BindUnbind.
Import Evaluator Balancer.

Lemma int32_incr_decr z : - 2 ^ 31 <= z < 2 ^ 31 -> int32 (int32 (z + 1) + -1) = z.
Proof.
  intros Hz. unfold int32.
  replace ((z + 1 + 2 ^ 31) mod 2 ^ 32 - 2 ^ 31 + -1 + 2 ^ 31)
    with ((z + 1 + 2 ^ 31) mod 2 ^ 32 + -1) by ring.
  rewrite Zplus_mod_idemp_l.
  replace (z + 1 + 2 ^ 31 + -1) with (z + 2 ^ 31) by ring.
  rewrite Z.mod_small; [ring|].
  change (2 ^ 32) with (2 ^ 31 + 2 ^ 31). lia.
Qed.

Lemma int32_decr_incr z : - 2 ^ 31 <= z < 2 ^ 31 -> int32 (int32 (z + -1) + 1) = z.
Proof.
  intros Hz. unfold int32.
  replace ((z + -1 + 2 ^ 31) mod 2 ^ 32 - 2 ^ 31 + 1 + 2 ^ 31)
    with ((z + -1 + 2 ^ 31) mod 2 ^ 32 + 1) by ring.
  rewrite Zplus_mod_idemp_l.
  replace (z + -1 + 2 ^ 31 + 1) with (z + 2 ^ 31) by ring.
  rewrite Z.mod_small; [ring|].
  change (2 ^ 32) with (2 ^ 31 + 2 ^ 31). lia.
Qed.

(** X8: on counts in the range of [int32], the decrement undoes the
    increment and the increment undoes the decrement, also across the wrap
    at the two ends of the range; this holds for the affinity count and for
    the stream count, and neither operation touches the other count or the
    handle. *)
Theorem X8_counter_increment_and_decrement_are_inverse (ref : subConnRef) :
  - 2 ^ 31 <= affinityCnt ref < 2 ^ 31 ->
  - 2 ^ 31 <= streamsCnt ref < 2 ^ 31 ->
  affinityDecr (affinityIncr ref) = ref /\
  affinityIncr (affinityDecr ref) = ref /\
  streamsDecr (streamsIncr ref) = ref /\
  streamsIncr (streamsDecr ref) = ref /\
  affinityIncr (streamsIncr ref) = streamsIncr (affinityIncr ref) /\
  affinityDecr (streamsDecr ref) = streamsDecr (affinityDecr ref).
Proof.
  intros Ha Hs. destruct ref as [h a s]. simpl in Ha, Hs.
  unfold affinityDecr, affinityIncr, streamsDecr, streamsIncr. simpl.
  rewrite !int32_incr_decr, !int32_decr_incr by assumption.
  repeat split; reflexivity.
Qed.

Lemma X8_counter_witness :
  affinityDecr (affinityIncr (mkRef 1%nat (2 ^ 31 - 1) 0))
  = mkRef 1%nat (2 ^ 31 - 1) 0.
Proof.
  apply (X8_counter_increment_and_decrement_are_inverse
           (mkRef 1%nat (2 ^ 31 - 1) 0)); simpl; lia.
Defined.

Lemma gcpBalancer_eta gb :
  mkBalancer (addrs gb) (cc gb) (csEvltr gb) (state gb)
             (affinityMap gb) (scStates gb) (scRefs gb) (picker gb) = gb.
Proof. destruct gb. reflexivity. Qed.

(** X9: binding an unbound key to a connection and unbinding it again
    restores the balancer exactly when the connection had no binding left
    (count <= 0).  When the connection still has a positive count, from
    other keys, the count comes back to its value but the key stays in the
    affinity table: the unbind that follows the bind does not remove it. *)
Theorem X9_bind_then_unbind
    (gb : gcpBalancer) (key : string) (sc : SubConn) (ref : subConnRef) :
  affinityMap gb !! key = None ->
  scRefs gb !! sc = Some ref ->
  - 2 ^ 31 <= affinityCnt ref < 2 ^ 31 ->
  (affinityCnt ref <= 0 ->
   rbind (bindSubConn gb key sc) (fun g => unbindSubConn g key) = Ok gb) /\
  (0 < affinityCnt ref ->
   rbind (bindSubConn gb key sc) (fun g => unbindSubConn g key)
   = Ok (set_affinityMap (<[key := sc]> (affinityMap gb)) gb)).
Proof.
  intros Hk Href Hrange.
  assert (Hback : affinityDecr (affinityIncr ref) = ref).
  { destruct ref as [h a s]. simpl in Hrange.
    unfold affinityDecr, affinityIncr. simpl.
    now rewrite int32_incr_decr. }
  rewrite (bindSubConn_Some gb key sc ref Href), Hk. simpl rbind.
  erewrite unbindSubConn_Some;
    [| simpl; apply lookup_insert_eq | simpl; apply lookup_insert_eq].
  cbv zeta. rewrite Hback. simpl scRefs. simpl affinityMap.
  rewrite insert_insert_eq, (insert_id _ _ _ Href).
  split; intros Hc.
  - destruct (Z.leb_spec (affinityCnt ref) 0); [|lia].
    unfold set_affinityMap, set_scRefs. simpl.
    rewrite delete_insert_eq, (delete_id _ _ Hk).
    f_equal. apply gcpBalancer_eta.
  - destruct (Z.leb_spec (affinityCnt ref) 0); [lia|].
    unfold set_affinityMap, set_scRefs. simpl. reflexivity.
Qed.

Lemma X9_bind_then_unbind_witness :
  rbind (bindSubConn (newSubConn Build (Some 1%nat)) "k" 1%nat)
        (fun g => unbindSubConn g "k")
  = Ok (newSubConn Build (Some 1%nat)).
Proof.
  apply (X9_bind_then_unbind (newSubConn Build (Some 1%nat)) "k" 1%nat
           (mkRef 1%nat 0 0)).
  - reflexivity.
  - reflexivity.
  - simpl. lia.
  - simpl. lia.
Defined.

(** X10: binding a key that is already bound to connection A to another
    connection B adds one to the count of B and leaves the key on A; the
    unbind of the key then takes one from the count of A, never from B, so
    the increment of B is not given back, and the key is never moved to
    B. *)
Theorem X10_rebinding_counts_on_the_wrong_connection
    (gb : gcpBalancer) (key : string) (A B : SubConn) (ra rb : subConnRef) :
  affinityMap gb !! key = Some A ->
  A <> B ->
  scRefs gb !! A = Some ra ->
  scRefs gb !! B = Some rb ->
  exists g1 g2,
    bindSubConn gb key B = Ok g1 /\
    affinityMap g1 !! key = Some A /\
    affinityOf g1 B = Some (int32 (affinityCnt rb + 1)) /\
    affinityOf g1 A = Some (affinityCnt ra) /\
    unbindSubConn g1 key = Ok g2 /\
    affinityOf g2 B = Some (int32 (affinityCnt rb + 1)) /\
    affinityOf g2 A = Some (int32 (affinityCnt ra + -1)) /\
    affinityMap g2 !! key <> Some B.
Proof.
  intros Hk Hne Ha Hb. eexists _, _.
  split; [apply (bindSubConn_Some gb key B rb Hb)|]. rewrite Hk.
  split; [exact Hk|].
  split; [unfold affinityOf; simpl; now rewrite lookup_insert_eq|].
  split; [unfold affinityOf; simpl; rewrite lookup_insert_ne by auto;
          now rewrite Ha|].
  split.
  { apply (unbindSubConn_Some _ key A ra); [exact Hk|].
    simpl. rewrite lookup_insert_ne by auto. exact Ha. }
  cbv zeta. simpl affinityCnt.
  destruct (int32 (affinityCnt ra + -1) <=? 0); unfold affinityOf; simpl;
    rewrite lookup_insert_ne by auto; rewrite !lookup_insert_eq;
    (split; [reflexivity|]); (split; [reflexivity|]).
  - rewrite lookup_delete_eq. discriminate.
  - rewrite Hk. congruence.
Qed.

Lemma X10_rebinding_witness :
  exists g1 g2,
    bindSubConn
      (set_affinityMap {[ "k" := 1%nat ]}
         (newSubConn (newSubConn Build (Some 1%nat)) (Some 2%nat)))
      "k" 2%nat = Ok g1 /\
    unbindSubConn g1 "k" = Ok g2 /\
    affinityOf g2 2%nat = Some 1 /\
    affinityOf g2 1%nat = Some (-1).
Proof.
  destruct (X10_rebinding_counts_on_the_wrong_connection
              (set_affinityMap {[ "k" := 1%nat ]}
                 (newSubConn (newSubConn Build (Some 1%nat)) (Some 2%nat)))
              "k" 1%nat 2%nat (mkRef 1%nat 0 0) (mkRef 2%nat 0 0))
    as (g1 & g2 & H1 & _ & _ & _ & H2 & HB & HA & _);
    [reflexivity | discriminate | reflexivity | reflexivity |].
  exists g1, g2. repeat split; assumption.
Defined.

End BindUnbind.

(** ** Shutdown, frames and the failure picker *)

Section Lifecycle.
Import Evaluator Balancer.

(** X11: [Shutdown] is final.  After [HandleSubConnStateChange] with
    [Shutdown] the handle is not tracked, and every later notification for
    it, whatever its state, leaves the balancer as it is.  For a tracked
    connection of a balancer whose two maps agree, the reference is gone as
    well and the pool is one connection smaller. *)
Theorem X11_shutdown_is_final (gb : gcpBalancer) (sc : SubConn) (s : State) :
  scStates (HandleSubConnStateChange gb sc Shutdown) !! sc = None /\
  HandleSubConnStateChange (HandleSubConnStateChange gb sc Shutdown) sc s
  = HandleSubConnStateChange gb sc Shutdown /\
  (consistent gb -> is_Some (scStates gb !! sc) ->
   scRefs (HandleSubConnStateChange gb sc Shutdown) !! sc = None /\
   S (getConnectionPoolSize (HandleSubConnStateChange gb sc Shutdown))
   = getConnectionPoolSize gb).
Proof.
  destruct (HandleSubConnStateChange_maps gb sc Shutdown) as (_ & H).
  assert (Hgone : scStates (HandleSubConnStateChange gb sc Shutdown) !! sc = None).
  { destruct (scStates gb !! sc) as [oldS|] eqn:E.
    - simpl in H. destruct H as [-> _]. apply lookup_delete_eq.
    - rewrite H. exact E. }
  split; [exact Hgone|]. split.
  - set (g := HandleSubConnStateChange gb sc Shutdown) in *.
    unfold HandleSubConnStateChange at 1. now rewrite Hgone.
  - intros [Hdom _] [oldS E]. rewrite E in H. simpl in H. destruct H as [_ C].
    unfold getConnectionPoolSize. rewrite C.
    split; [apply lookup_delete_eq|].
    assert (is_Some (scRefs gb !! sc)) as [ref Href] by (apply Hdom; eauto).
    rewrite map_size_delete, Href. simpl.
    pose proof (map_size_ne_0_lookup_2 (scRefs gb) sc ltac:(eauto)). lia.
Qed.

Lemma X11_shutdown_is_final_witness :
  scRefs (HandleSubConnStateChange (newSubConn Build (Some 1%nat)) 1%nat Shutdown)
    !! 1%nat = None /\
  S (getConnectionPoolSize
       (HandleSubConnStateChange (newSubConn Build (Some 1%nat)) 1%nat Shutdown))
  = getConnectionPoolSize (newSubConn Build (Some 1%nat)).
Proof.
  apply (X11_shutdown_is_final (newSubConn Build (Some 1%nat)) 1%nat Idle).
  - apply (consistent_run [OpNewSubConn (Some 1%nat)] Build);
      [apply consistent_Build | reflexivity].
  - exists Idle. reflexivity.
Defined.

(** X12: the affinity operations have no effect on routing, and the pool
    events none on the affinity table.  A [bindSubConn] or [unbindSubConn]
    that completes changes neither the connection states, the evaluator, the
    aggregated state, the picker, the addresses nor the calls sent to the
    host, and leaves the handle and the stream count of every reference as
    they are.  [HandleResolvedAddrs], [newSubConn], [HandleSubConnStateChange]
    and [Close] never change the affinity table, and every reference they
    leave in the pool is either unchanged or new with both counts at zero. *)
Theorem X12_affinity_and_pool_operations_are_separate
    (gb : gcpBalancer) (op : Op) (gb' : gcpBalancer) :
  step gb op = Ok gb' ->
  match op with
  | OpBind _ _ | OpUnbind _ =>
      scStates gb' = scStates gb /\ csEvltr gb' = csEvltr gb /\
      state gb' = state gb /\ picker gb' = picker gb /\
      cc gb' = cc gb /\ addrs gb' = addrs gb /\
      forall sc r', scRefs gb' !! sc = Some r' ->
        exists r, scRefs gb !! sc = Some r /\
                  subConn r' = subConn r /\ streamsCnt r' = streamsCnt r
  | _ =>
      affinityMap gb' = affinityMap gb /\
      forall sc r, scRefs gb' !! sc = Some r ->
        scRefs gb !! sc = Some r \/ r = mkRef sc 0 0
  end.
Proof.
  intros Hstep. destruct op as [a err r|r|key sc|key|sc s|]; simpl in Hstep.
  - injection Hstep as <-.
    destruct (HandleResolvedAddrs_maps gb a err r)
      as (A & [[_ C] | (sc & _ & _ & _ & C)]); (split; [exact A|]);
      intros j r0; rewrite C; [auto|].
    rewrite lookup_insert_Some. intros [[<- <-] | [_ H]]; auto.
  - injection Hstep as <-.
    destruct (newSubConn_maps gb r) as (A & [[_ C] | (sc & _ & _ & _ & C)]);
      (split; [exact A|]); intros j r0; rewrite C; [auto|].
    rewrite lookup_insert_Some. intros [[<- <-] | [_ H]]; auto.
  - destruct (bindSubConn_eval _ _ _ _ Hstep) as [He Hst].
    destruct (bindSubConn_host _ _ _ _ Hstep) as (Hcc & Hp & Ha).
    apply bindSubConn_Ok in Hstep as (ref & Href & Hr & Hs & _).
    repeat (split; [assumption|]).
    intros j r'. rewrite Hr, lookup_insert_Some.
    intros [[<- <-] | [_ H]]; eauto.
  - destruct (unbindSubConn_eval _ _ _ Hstep) as [He Hst].
    destruct (unbindSubConn_host _ _ _ Hstep) as (Hcc & Hp & Ha).
    apply unbindSubConn_Ok in Hstep
      as [[_ ->] | (sc & ref & _ & Href & Hr & Hs & _)].
    + repeat (split; [reflexivity|]). eauto.
    + repeat (split; [assumption|]).
      intros j r'. rewrite Hr, lookup_insert_Some.
      intros [[<- <-] | [_ H]]; eauto.
  - injection Hstep as <-.
    destruct (HandleSubConnStateChange_maps gb sc s) as (A & H).
    split; [exact A|]. intros j r0.
    destruct (scStates gb !! sc) as [oldS|] eqn:E; [|rewrite H; auto].
    destruct (decide (s = Shutdown)); destruct H as [_ ->]; [|auto].
    rewrite lookup_delete_Some. intros [_ Hj]. auto.
  - injection Hstep as <-. unfold Close. auto.
Qed.

Lemma X12_separate_witness :
  affinityMap (HandleSubConnStateChange
                 (set_affinityMap {[ "k" := 1%nat ]} (newSubConn Build (Some 1%nat)))
                 1%nat Shutdown)
  = {[ "k" := 1%nat ]}.
Proof.
  exact (proj1 (X12_affinity_and_pool_operations_are_separate
                  (set_affinityMap {[ "k" := 1%nat ]}
                     (newSubConn Build (Some 1%nat)))
                  (OpStateChange 1%nat Shutdown) _ eq_refl)).
Defined.

Lemma failurePicker_step gb op gb' :
  True ->
  consistent gb /\
  (state gb = TransientFailure <-> picker gb = errPicker ErrTransientFailure) ->
  step gb op = Ok gb' ->
  consistent gb' /\
  (state gb' = TransientFailure <-> picker gb' = errPicker ErrTransientFailure).
Proof.
  intros _ [Hc Hiff] Hstep.
  split; [now apply (consistent_step gb op gb')|].
  destruct op as [a err r|r|key sc|key|sc s|]; simpl in Hstep.
  - injection Hstep as <-.
    destruct (HandleResolvedAddrs_calls gb a err r) as (_ & _ & _ & ->).
    destruct (HandleResolvedAddrs_eval gb a err r) as [_ ->]. exact Hiff.
  - injection Hstep as <-.
    destruct (newSubConn_calls gb r) as (_ & _ & _ & ->).
    destruct (newSubConn_eval gb r) as [_ ->]. exact Hiff.
  - destruct (bindSubConn_eval _ _ _ _ Hstep) as [_ ->].
    destruct (bindSubConn_host _ _ _ _ Hstep) as (_ & -> & _). exact Hiff.
  - destruct (unbindSubConn_eval _ _ _ Hstep) as [_ ->].
    destruct (unbindSubConn_host _ _ _ Hstep) as (_ & -> & _). exact Hiff.
  - injection Hstep as <-.
    destruct (scStates gb !! sc) as [oldS|] eqn:E;
      [|unfold HandleSubConnStateChange; rewrite E; exact Hiff].
    destruct (HandleSubConnStateChange_publication gb sc s oldS Hc E)
      as (_ & Hpub & Hkeep).
    destruct (classic_flips oldS s (state gb)
                (state (HandleSubConnStateChange gb sc s))) as [Hf | Hn].
    + destruct (Hpub Hf) as (_ & Htf & Hok). split; [exact Htf|].
      intros Hp.
      destruct (decide (state (HandleSubConnStateChange gb sc s)
                        = TransientFailure)) as [Ht | Ht]; [exact Ht|].
      destruct (Hok Ht) as (l & Hl & _). congruence.
    + destruct (Hkeep Hn) as (_ & ->). unfold flips in Hn.
      destruct (decide (state (HandleSubConnStateChange gb sc s)
                        = TransientFailure)),
        (decide (state gb = TransientFailure)); tauto.
  - injection Hstep as <-. exact Hiff.
Qed.

(** X13: the balancer holds the picker that fails every call with
    [ErrTransientFailure] exactly while its aggregated state is
    [TransientFailure], in every state reached from [Build] by a run that
    completes. *)
Theorem X13_failure_picker_iff_transient_failure (ops : list Op) (gb : gcpBalancer) :
  run Build ops = Ok gb ->
  (state gb = TransientFailure <-> picker gb = errPicker ErrTransientFailure).
Proof.
  intros Hrun.
  apply (run_invariant
           (fun g => consistent g /\
                     (state g = TransientFailure <->
                      picker g = errPicker ErrTransientFailure))
           (fun _ => True) failurePicker_step ops Build gb).
  - apply Forall_forall. auto.
  - split; [apply consistent_Build|]. simpl. split; discriminate.
  - exact Hrun.
Qed.

Lemma X13_failure_picker_witness :
  picker (HandleSubConnStateChange (newSubConn Build (Some 1%nat))
                                   1%nat TransientFailure)
  = errPicker ErrTransientFailure.
Proof.
  apply (X13_failure_picker_iff_transient_failure
           [OpNewSubConn (Some 1%nat); OpStateChange 1%nat TransientFailure]).
  - reflexivity.
  - reflexivity.
Defined.

End Lifecycle.

(** ** Transitions in sequence *)

Section Transitions.
Import Evaluator.

Lemma cse_ext (c1 c2 : ConnectivityStateEvaluator) :
  (forall s, counter c1 s = counter c2 s) -> c1 = c2.
Proof.
  intros H. pose proof (H Ready) as HR. pose proof (H Connecting) as HC.
  pose proof (H TransientFailure) as HT.
  destruct c1, c2. simpl in *. congruence.
Qed.

Lemma counter_wf_range cse s c : wf cse -> counter cse s = Some c -> 0 <= c < 2 ^ 64.
Proof.
  intros (Hr & Hc & Ht) H.
  destruct s; simpl in H; try discriminate; injection H as <-; assumption.
Qed.

Lemma tracked_Permutation s ps qs : Permutation ps qs -> tracked s ps = tracked s qs.
Proof.
  induction 1 as [|[o n] ps qs _ IH|[o1 n1] [o2 n2] ps|ps qs rs _ IH1 _ IH2];
    simpl; [reflexivity | rewrite IH; reflexivity | ring | congruence].
Qed.

(** X14: transitions compose.  On an evaluator with counters in range,
    recording a connection going from a to b and then from b to c leaves the
    counters of a single transition from a to c; recording a transition and
    then its reverse restores the evaluator; and the counters after a
    sequence of transitions, hence the state returned next, do not depend on
    the order in which the transitions were recorded. *)
Theorem X14_transitions_compose
    (cse : ConnectivityStateEvaluator) (a b c : State)
    (ps qs : list (State * State)) :
  wf cse ->
  fst (RecordTransition (fst (RecordTransition cse a b)) b c)
  = fst (RecordTransition cse a c) /\
  fst (RecordTransition (fst (RecordTransition cse a b)) b a) = cse /\
  (Permutation ps qs -> feed cse ps = feed cse qs).
Proof.
  intros Hwf.
  assert (Hcomp : forall c', fst (RecordTransition (fst (RecordTransition cse a b)) b c')
                             = fst (RecordTransition cse a c')).
  { intros c'. apply cse_ext. intros s.
    destruct (counter cse s) as [c0|] eqn:E.
    - rewrite (RecordTransition_counter _ b c' s
                 (uint64 (c0 - ind a s + ind b s)));
        [| now apply RecordTransition_wf | now apply RecordTransition_counter].
      rewrite (RecordTransition_counter cse a c' s c0 Hwf E). f_equal.
      replace (uint64 (c0 - ind a s + ind b s) - ind b s + ind c' s)
        with (uint64 (c0 - ind a s + ind b s) + (- ind b s + ind c' s)) by ring.
      rewrite uint64_add_l. f_equal. ring.
    - destruct s; simpl in E; try discriminate; reflexivity. }
  split; [apply Hcomp|]. split.
  - rewrite Hcomp. apply cse_ext. intros s.
    destruct (counter cse s) as [c0|] eqn:E.
    + rewrite (RecordTransition_counter cse a a s c0 Hwf E). f_equal.
      replace (c0 - ind a s + ind a s) with c0 by ring.
      apply uint64_small. now apply (counter_wf_range cse s).
    + destruct s; simpl in E; try discriminate; reflexivity.
  - intros Hperm. apply cse_ext. intros s.
    destruct (counter cse s) as [c0|] eqn:E.
    + rewrite (feed_counter ps cse s c0 Hwf E), (feed_counter qs cse s c0 Hwf E).
      now rewrite (tracked_Permutation s ps qs Hperm).
    + destruct s; simpl in E; try discriminate; reflexivity.
Qed.

Lemma X14_transitions_compose_witness :
  fst (RecordTransition (fst (RecordTransition zero Idle Connecting)) Connecting Ready)
  = fst (RecordTransition zero Idle Ready) /\
  feed zero [(Idle, Ready); (Ready, Idle)] = feed zero [(Ready, Idle); (Idle, Ready)].
Proof.
  destruct (X14_transitions_compose zero Idle Connecting Ready
              [(Idle, Ready); (Ready, Idle)] [(Ready, Idle); (Idle, Ready)]
              zero_wf) as (H1 & _ & H3).
  split; [exact H1|]. apply H3. apply perm_swap.
Defined.

End Transitions.

(** ** Creation in a row *)

Section Creation.
Import Evaluator Balancer.

Lemma newSubConn_registers gb sc :
  anyConnecting gb = false ->
  scStates (newSubConn gb (Some sc)) = <[sc := Idle]> (scStates gb) /\
  scRefs (newSubConn gb (Some sc)) = <[sc := mkRef sc 0 0]> (scRefs gb).
Proof. intros H. unfold newSubConn. rewrite H. simpl. auto. Qed.

Lemma anyConnecting_register gb sc :
  anyConnecting gb = false -> anyConnecting (newSubConn gb (Some sc)) = false.
Proof.
  intros H. destruct (anyConnecting (newSubConn gb (Some sc))) eqn:E;
    [|reflexivity].
  apply anyConnecting_true in E as (j & Hj).
  rewrite (proj1 (newSubConn_registers gb sc H)) in Hj.
  apply lookup_insert_Some in Hj as [[_ Hj] | [_ Hj]]; [discriminate|].
  assert (anyConnecting gb = true) by (apply anyConnecting_true; eauto).
  congruence.
Qed.

Lemma createAll_grows (l : list nat) : forall gb,
  NoDup l ->
  (forall sc, sc ∈ l -> scRefs gb !! sc = None) ->
  anyConnecting gb = false ->
  anyConnecting (createAll gb l) = false /\
  getConnectionPoolSize (createAll gb l)
  = (getConnectionPoolSize gb + length l)%nat.
Proof.
  unfold createAll, getConnectionPoolSize.
  induction l as [|sc l IH]; intros gb Hnd Hfresh Hguard; simpl.
  - split; [exact Hguard | lia].
  - apply NoDup_cons in Hnd as [Hnotin Hnd].
    destruct (newSubConn_registers gb sc Hguard) as [_ Hr].
    destruct (IH (newSubConn gb (Some sc)) Hnd) as [Hg Hsz].
    + intros j Hj. rewrite Hr, lookup_insert_ne.
      * apply Hfresh. now right.
      * intros <-. contradiction.
    + now apply anyConnecting_register.
    + split; [exact Hg|]. rewrite Hsz, Hr.
      rewrite map_size_insert_None by (apply Hfresh; left). lia.
Qed.

(** X15: the guard of [newSubConn] does not see the connections it has just
    created, and nothing bounds the pool.  From a balancer without
    connection in [Connecting], creating one connection for each handle of a
    list of distinct new handles, with no notification in between, succeeds
    every time: the pool grows by the length of the list, beyond
    [defaultMaxConn] when the list is longer, and still no connection is in
    [Connecting]. *)
Theorem X15_creation_in_a_row_is_not_suppressed
    (gb : gcpBalancer) (l : list SubConn) :
  NoDup l ->
  (forall sc, sc ∈ l -> scRefs gb !! sc = None) ->
  anyConnecting gb = false ->
  getConnectionPoolSize (createAll gb l)
  = (getConnectionPoolSize gb + length l)%nat /\
  anyConnecting (createAll gb l) = false /\
  ((defaultMaxConn < length l)%nat ->
   (defaultMaxConn < getConnectionPoolSize (createAll gb l))%nat).
Proof.
  intros Hnd Hfresh Hguard.
  destruct (createAll_grows l gb Hnd Hfresh Hguard) as [Hg Hsz].
  split; [exact Hsz|]. split; [exact Hg|]. rewrite Hsz. lia.
Qed.

Lemma X15_creation_in_a_row_witness :
  getConnectionPoolSize (createAll Build (seq 1 11)) = 11%nat.
Proof.
  apply (X15_creation_in_a_row_is_not_suppressed Build (seq 1 11)).
  - apply NoDup_ListNoDup, seq_NoDup.
  - intros sc _. reflexivity.
  - reflexivity.
Defined.

End Creation.
